(** * sliced-image: the N-slice geometry engine and its document codec

    A shallow embedding of [src/utils/math.ts], of the state handlers of
    [src/App.tsx] and of the numeric entry of [src/components/Inspector.tsx].

    Numbers.  A TypeScript [number] is an IEEE double.  The embedding takes
    the finite ones as exact rationals [Q]: sums, products and quotients are
    the exact ones, which is the reading the specification asks for when it
    says "within floating-point tolerance".  The source rounds every
    operation to the nearest double, so an equation between the results of
    different computations holds of the source up to that rounding only;
    the statements below that need exact arithmetic say so, the others
    compare values the source computes in one and the same way, or state
    an order that rounding to nearest keeps.  A quotient
    whose divisor is zero (in JavaScript an infinity or NaN, never an
    exception) is outside this reading;
    [calculateDestinationSegments_finite] is the layout with such
    quotients, and what is computed from them, marked as not finite.

    Objects used as dictionaries ([TileMap]) are [gmap string _]; arrays are
    lists, read by index with stdpp's lookup, so that an index past the end
    yields [None] as it yields [undefined] in the source. *)

From Stdlib Require Import QArith Qminmax Qround Lqa Lia.
From Stdlib Require Import Sorted Permutation.
From stdpp Require Import base list strings gmap pretty.

(** ** [types.ts] *)

Inductive TileMode := Fixed | Stretch | Repeat | Hidden.

Record Axis := { id : string; value : Q }.

Record TileConfig := { mode : TileMode }.

Abbreviation TileMap := (gmap string TileConfig).

(** [NSliceConfig] as [handleLoadJson] receives it: the object is a parsed
    JSON value cast to the interface, so every field may be missing
    ([None] is [undefined]), which is what the handler's guards test. *)
Module NSliceConfig.
Record t := mk
  { filename : option string;
    xAxes : option (list Axis);
    yAxes : option (list Axis);
    tiles : option TileMap;
    rowScaling : option (list bool);
    colScaling : option (list bool) }.
End NSliceConfig.

(** ** [utils/math.ts] *)

Module Segment.
Record t := mk { start : Q; length : Q; isFixed : bool; index : nat }.
End Segment.

Module DestSegment.
Record t := mk { start : Q; length : Q; srcIndex : nat }.
End DestSegment.

(** The template literal [`${row}-${col}`] on array indices. *)
Definition tile_key (row col : nat) : string :=
  pretty row +:+ "-" +:+ pretty col.

(** [if (tiles[key]) return tiles[key].mode; return TileMode.Stretch]:
    a stored [TileConfig] is an object, hence truthy. *)
Definition getEffectiveTileMode (tiles : TileMap) (row col : nat) : TileMode :=
  let key := tile_key row col in
  match tiles !! key with
  | Some cfg => mode cfg
  | None => Stretch
  end.

(** [Array.from({ length: numSegments }).map((_, i) => i % 2 !== 0)] *)
Definition generateDefaultScaling (numSegments : nat) : list bool :=
  imap (fun i _ => negb (i mod 2 =? 0)) (replicate numSegments tt).

(** [x < y] on numbers, as a boolean ([x > 0] is [0 < x]). *)
Definition Qlt_bool (x y : Q) : bool := negb (Qle_bool y x).

(** [[...axes].sort((a, b) => a.value - b.value)]: a stable sort by value,
    written as the insertion sort that keeps equal values in their order. *)
Fixpoint insert_axis (a : Axis) (l : list Axis) : list Axis :=
  match l with
  | [] => [a]
  | b :: l' =>
      if Qle_bool (value a) (value b) then a :: b :: l'
      else b :: insert_axis a l'
  end.

Definition sort_axes (axes : list Axis) : list Axis :=
  foldr insert_axis [] axes.

(** The body of [boundaries.forEach((boundary, i) => ...)]: the state is the
    array [segments] built so far and the variable [cursor]. *)
Definition segment_step (scalingArray : list bool)
    (st : list Segment.t * Q) (ib : nat * Q) : list Segment.t * Q :=
  let '(segments, cursor) := st in
  let '(i, boundary) := ib in
  let isScalable := default false (scalingArray !! i) in
  let len := (boundary - cursor)%Q in
  ((if Qlt_bool 0 len
    then segments ++ [ Segment.mk cursor len (negb isScalable) i ]
    else segments),
   boundary).

(** [[...sorted.map(a => (a.value / 100) * totalSize), totalSize]] *)
Definition boundaries_of (sorted : list Axis) (totalSize : Q) : list Q :=
  map (fun a => (value a / 100) * totalSize)%Q sorted ++ [totalSize].

Definition calculateSegments (axes : list Axis) (totalSize : Q)
    (scalingArray : list bool) : list Segment.t :=
  let sorted := sort_axes axes in
  let boundaries := boundaries_of sorted totalSize in
  fst (fold_left (segment_step scalingArray) (imap pair boundaries) ([], 0%Q)).

(** [segs.reduce((acc, s) => acc + s.length, 0)] *)
Definition sum_lengths (segs : list Segment.t) : Q :=
  fold_left (fun acc s => (acc + Segment.length s)%Q) segs 0%Q.

Definition totalFixed_of (srcSegments : list Segment.t) : Q :=
  sum_lengths (List.filter (fun s => Segment.isFixed s) srcSegments).

Definition totalScaleSourceLength_of (srcSegments : list Segment.t) : Q :=
  sum_lengths (List.filter (fun s => negb (Segment.isFixed s)) srcSegments).

Definition availableScaleSpace_of (srcSegments : list Segment.t) (targetSize : Q) : Q :=
  Qmax 0 (targetSize - totalFixed_of srcSegments).

Definition scaleFixed_of (srcSegments : list Segment.t) (targetSize : Q) : Q :=
  let totalFixed := totalFixed_of srcSegments in
  if Qlt_bool targetSize totalFixed then (targetSize / totalFixed)%Q else 1%Q.

(** The value [destLength] has when the body of [srcSegments.forEach]
    pushes the destination segment. *)
Definition destLength_of (scaleFixed totalScaleSourceLength availableScaleSpace : Q)
    (seg : Segment.t) : Q :=
  if Segment.isFixed seg then (Segment.length seg * scaleFixed)%Q
  else if Qeq_bool totalScaleSourceLength 0 then 0%Q
  else
    let ratio := (Segment.length seg / totalScaleSourceLength)%Q in
    (ratio * availableScaleSpace)%Q.

Definition dest_step (scaleFixed totalScaleSourceLength availableScaleSpace : Q)
    (st : list DestSegment.t * Q) (seg : Segment.t) : list DestSegment.t * Q :=
  let '(destSegments, cursor) := st in
  let destLength :=
    destLength_of scaleFixed totalScaleSourceLength availableScaleSpace seg in
  (destSegments ++ [ DestSegment.mk cursor destLength (Segment.index seg) ],
   (cursor + destLength)%Q).

Definition calculateDestinationSegments (srcSegments : list Segment.t)
    (targetSize : Q) : list DestSegment.t :=
  let availableScaleSpace := availableScaleSpace_of srcSegments targetSize in
  let scaleFixed := scaleFixed_of srcSegments targetSize in
  let totalScaleSourceLength := totalScaleSourceLength_of srcSegments in
  fst (fold_left (dest_step scaleFixed totalScaleSourceLength availableScaleSpace)
         srcSegments ([], 0%Q)).

(** *** The layout with the numbers that are not finite marked

    In JavaScript [x / 0] is an infinity or NaN, and so is every product
    and sum with one.  The same function as
    [calculateDestinationSegments], with [None] for a number that is not
    finite: a quotient by 0 and what is computed from it; the result is
    [None] when a number of the list is not finite. *)

Definition finite_div (x y : Q) : option Q :=
  if Qeq_bool y 0 then None else Some (x / y)%Q.





(** ** [App.tsx]: the editor state and its handlers *)

(** The union type ['x' | 'y']. *)
Inductive AxisType := AxisX | AxisY.

Definition axis_type_string (type : AxisType) : string :=
  match type with AxisX => "x" | AxisY => "y" end.

(** The [useState] cells of [App] that the handlers below read or set. *)
Module AppState.
Record t := mk
  { filename : string;
    xAxes : list Axis;
    yAxes : list Axis;
    rowScaling : list bool;
    colScaling : list bool;
    tiles : TileMap;
    selectedAxis : option (string * AxisType) }.
End AppState.

(** The handlers are state transformers: [setXAxes(newAxes)] is computed
    from the state the handler runs in, [setColScaling(prev => ...)] from
    the state being replaced, and these are the same state for a handler
    run on its own.

    [handleAddAxis]; [now] is the value of [Date.now()]. *)
Definition handleAddAxis (now : N) (type : AxisType) (st : AppState.t) : AppState.t :=
  let newId := axis_type_string type +:+ pretty now in
  let newAxis := {| id := newId; value := 50 |} in
  match type with
  | AxisX =>
      let newAxes := AppState.xAxes st ++ [newAxis] in
      let newSegmentIndex := List.length newAxes in
      AppState.mk (AppState.filename st) newAxes (AppState.yAxes st)
        (AppState.rowScaling st)
        (AppState.colScaling st ++ [negb (newSegmentIndex mod 2 =? 0)])
        (AppState.tiles st) (Some (newId, type))
  | AxisY =>
      let newAxes := AppState.yAxes st ++ [newAxis] in
      let newSegmentIndex := List.length newAxes in
      AppState.mk (AppState.filename st) (AppState.xAxes st) newAxes
        (AppState.rowScaling st ++ [negb (newSegmentIndex mod 2 =? 0)])
        (AppState.colScaling st)
        (AppState.tiles st) (Some (newId, type))
  end.

(** [prev.slice(0, -1)] *)
Definition slice_0_minus1 {A} (prev : list A) : list A :=
  take (List.length prev - 1) prev.

(** [axes.filter(a => a.id !== id)] *)
Definition remove_axis (i : string) (axes : list Axis) : list Axis :=
  List.filter (fun a => negb (String.eqb (id a) i)) axes.

(** [handleDeleteAxis]; [selectedAxis?.id === id] compares the identifier
    alone. *)
Definition handleDeleteAxis (i : string) (type : AxisType) (st : AppState.t) : AppState.t :=
  let selectedAxis' :=
    match AppState.selectedAxis st with
    | Some (sid, _) => if String.eqb sid i then None else AppState.selectedAxis st
    | None => None
    end in
  match type with
  | AxisX =>
      AppState.mk (AppState.filename st)
        (remove_axis i (AppState.xAxes st)) (AppState.yAxes st)
        (AppState.rowScaling st) (slice_0_minus1 (AppState.colScaling st))
        (AppState.tiles st) selectedAxis'
  | AxisY =>
      AppState.mk (AppState.filename st)
        (AppState.xAxes st) (remove_axis i (AppState.yAxes st))
        (slice_0_minus1 (AppState.rowScaling st)) (AppState.colScaling st)
        (AppState.tiles st) selectedAxis'
  end.

(** The two nested [for] loops of [generateJSON] that fill [explicitTiles]. *)
Definition dense_row (tiles : TileMap) (numCols : nat)
    (explicitTiles : TileMap) (r : nat) : TileMap :=
  fold_left
    (fun acc c =>
       let key := tile_key r c in
       let m := getEffectiveTileMode tiles r c in
       <[ key := {| mode := m |} ]> acc)
    (seq 0 numCols) explicitTiles.

Definition dense_tiles (tiles : TileMap) (numRows numCols : nat) : TileMap :=
  fold_left (dense_row tiles numCols) (seq 0 numRows) ∅.

(** [generateJSON], up to the final [JSON.stringify]: the [config] object. *)
Definition generateJSON (st : AppState.t) : NSliceConfig.t :=
  let sortedX := sort_axes (AppState.xAxes st) in
  let sortedY := sort_axes (AppState.yAxes st) in
  let numRows := List.length sortedY + 1 in
  let numCols := List.length sortedX + 1 in
  let explicitTiles := dense_tiles (AppState.tiles st) numRows numCols in
  NSliceConfig.mk (Some (AppState.filename st))
    (Some (AppState.xAxes st)) (Some (AppState.yAxes st))
    (Some explicitTiles)
    (Some (AppState.rowScaling st)) (Some (AppState.colScaling st)).

(** [handleLoadJson].  A string is truthy unless empty; arrays and objects
    are truthy; [config.yAxes?.length || 0] is the length, or 0 without
    the array. *)
Definition handleLoadJson (config : NSliceConfig.t) (st : AppState.t) : AppState.t :=
  let filename' :=
    match NSliceConfig.filename config with
    | Some f => if String.eqb f "" then AppState.filename st else f
    | None => AppState.filename st
    end in
  let axes_length (o : option (list Axis)) :=
    match o with Some l => List.length l | None => 0 end in
  AppState.mk filename'
    (default [] (NSliceConfig.xAxes config))
    (default [] (NSliceConfig.yAxes config))
    (match NSliceConfig.rowScaling config with
     | Some rs => rs
     | None => generateDefaultScaling (axes_length (NSliceConfig.yAxes config) + 1)
     end)
    (match NSliceConfig.colScaling config with
     | Some cs => cs
     | None => generateDefaultScaling (axes_length (NSliceConfig.xAxes config) + 1)
     end)
    (default ∅ (NSliceConfig.tiles config))
    None.

(** ** [components/Inspector.tsx]: numeric entry of an axis position *)

(** What [parseFloat(newVal)] can return. *)
Inductive ParsedNumber := NaN | NegInfinity | PosInfinity | Finite (q : Q).

(** [Math.min(100, Math.max(0, val))] for a [val] that is not NaN. *)
Definition clamp_percent (val : ParsedNumber) : Q :=
  match val with
  | Finite q => Qmin 100 (Qmax 0 q)
  | PosInfinity => 100
  | NegInfinity => 0
  | NaN => 0
  end.

(** [axes.map(a => a.id === id ? { ...a, value: clamped } : a)] *)
Definition set_axis_value (i : string) (clamped : Q) (axes : list Axis) : list Axis :=
  map (fun a => if String.eqb (id a) i then {| id := id a; value := clamped |} else a) axes.

(** [updateAxisValue], on the result [val] of [parseFloat(newVal)];
    [onUpdateX] and [onUpdateY] are [setXAxes] and [setYAxes]. *)
Definition updateAxisValue (i : string) (type : AxisType) (val : ParsedNumber)
    (st : AppState.t) : AppState.t :=
  match val with
  | NaN => st
  | _ =>
      let clamped := clamp_percent val in
      match type with
      | AxisX =>
          AppState.mk (AppState.filename st)
            (set_axis_value i clamped (AppState.xAxes st)) (AppState.yAxes st)
            (AppState.rowScaling st) (AppState.colScaling st)
            (AppState.tiles st) (AppState.selectedAxis st)
      | AxisY =>
          AppState.mk (AppState.filename st)
            (AppState.xAxes st) (set_axis_value i clamped (AppState.yAxes st))
            (AppState.rowScaling st) (AppState.colScaling st)
            (AppState.tiles st) (AppState.selectedAxis st)
      end
  end.

(** *** The remaining handlers of [App.tsx] and [Inspector.tsx] *)

(** [const newScaling = [...scaling]; newScaling[index] = !newScaling[index]]:
    at an index of the array the flag is negated; at the index just past
    the end the array grows by [!undefined], which is [true]; further out
    the array would have holes, which a list of booleans does not
    represent ([None]). *)
Definition toggle_flag (index : nat) (scaling : list bool) : option (list bool) :=
  match scaling !! index with
  | Some b => Some (<[ index := negb b ]> scaling)
  | None =>
      if index =? List.length scaling then Some (scaling ++ [true]) else None
  end.

Definition toggleRowScaling (index : nat) (st : AppState.t) : option AppState.t :=
  match toggle_flag index (AppState.rowScaling st) with
  | Some newScaling =>
      Some (AppState.mk (AppState.filename st)
              (AppState.xAxes st) (AppState.yAxes st)
              newScaling (AppState.colScaling st)
              (AppState.tiles st) (AppState.selectedAxis st))
  | None => None
  end.

Definition toggleColScaling (index : nat) (st : AppState.t) : option AppState.t :=
  match toggle_flag index (AppState.colScaling st) with
  | Some newScaling =>
      Some (AppState.mk (AppState.filename st)
              (AppState.xAxes st) (AppState.yAxes st)
              (AppState.rowScaling st) newScaling
              (AppState.tiles st) (AppState.selectedAxis st))
  | None => None
  end.

(** [handleTileChange] of the inspector:
    [onUpdateTiles({ ...tiles, [key]: { mode } })], where [onUpdateTiles]
    is [setTiles]. *)
Definition handleTileChange (row col : nat) (m : TileMode) (st : AppState.t)
    : AppState.t :=
  let key := tile_key row col in
  AppState.mk (AppState.filename st)
    (AppState.xAxes st) (AppState.yAxes st)
    (AppState.rowScaling st) (AppState.colScaling st)
    (<[ key := {| mode := m |} ]> (AppState.tiles st))
    (AppState.selectedAxis st).

(** ** The drag of an axis handle (the grid-lines component, [handleMouseMove]) *)

(** [Math.max(0, Math.min(100, (relative / size) * 100))] *)
Definition drag_value (relative size : Q) : Q :=
  Qmax 0 (Qmin 100 ((relative / size) * 100)).

(** [handleMouseMove]: [dragging] is the component's state, [rect] the
    left and top of [containerRef.current.getBoundingClientRect()], or
    [None] when there is no container; [onUpdateX] and [onUpdateY] are
    [setXAxes] and [setYAxes]. *)
Definition handleMouseMove (dragging : option (string * AxisType))
    (rect : option (Q * Q)) (clientX clientY width height : Q)
    (st : AppState.t) : AppState.t :=
  match dragging, rect with
  | Some (i, AxisX), Some (rectLeft, _) =>
      let relativeX := (clientX - rectLeft)%Q in
      let newValue := drag_value relativeX width in
      AppState.mk (AppState.filename st)
        (set_axis_value i newValue (AppState.xAxes st)) (AppState.yAxes st)
        (AppState.rowScaling st) (AppState.colScaling st)
        (AppState.tiles st) (AppState.selectedAxis st)
  | Some (i, AxisY), Some (_, rectTop) =>
      let relativeY := (clientY - rectTop)%Q in
      let newValue := drag_value relativeY height in
      AppState.mk (AppState.filename st)
        (AppState.xAxes st) (set_axis_value i newValue (AppState.yAxes st))
        (AppState.rowScaling st) (AppState.colScaling st)
        (AppState.tiles st) (AppState.selectedAxis st)
  | _, _ => st
  end.

(** ** The preview canvas (the effect of the preview component) *)

Record Rect := { rect_x : Q; rect_y : Q; rect_w : Q; rect_h : Q }.

(** What the effect asks of the 2D context: [clearRect], and [drawImage]
    of a source rectangle of the image to a destination rectangle, under
    the clipping rectangle set between [ctx.save()] and [ctx.restore()]
    when there is one. *)
Inductive CanvasOp :=
| ClearRect (r : Rect)
| DrawImage (clip : option Rect) (src dst : Rect).

(** The values a counter takes in [for (let x = 0; x < n; x++)] for an
    integer [n]. *)
Definition counter_values (n : Z) : list Z :=
  map Z.of_nat (seq 0 (Z.to_nat n)).

(** The body of the inner [forEach] of the effect, for one cell of the
    grid, from the resolved [mode] on. *)
Definition draw_cell (mode : TileMode) (xSrc ySrc : Segment.t)
    (xDst yDst : DestSegment.t) : list CanvasOp :=
  match mode with
  | Hidden => []
  | _ =>
      let sx := Segment.start xSrc in
      let sy := Segment.start ySrc in
      let sw := Segment.length xSrc in
      let sh := Segment.length ySrc in
      let dx := DestSegment.start xDst in
      let dy := DestSegment.start yDst in
      let dw := DestSegment.length xDst in
      let dh := DestSegment.length yDst in
      if Qle_bool sw 0 || Qle_bool sh 0 || Qle_bool dw 0 || Qle_bool dh 0
      then []
      else
        let src := Build_Rect sx sy sw sh in
        let cell := Build_Rect dx dy dw dh in
        match mode with
        | Repeat =>
            let xRepeats := Qceiling (dw / sw) in
            let yRepeats := Qceiling (dh / sh) in
            mjoin
              (map
                 (fun y =>
                    map
                      (fun x =>
                         DrawImage (Some cell) src
                           (Build_Rect (dx + inject_Z x * sw)
                              (dy + inject_Z y * sh) sw sh))
                      (counter_values xRepeats))
                 (counter_values yRepeats))
        | Fixed =>
            let centeredX := (dx + (dw - sw) / 2)%Q in
            let centeredY := (dy + (dh - sh) / 2)%Q in
            [ DrawImage (Some cell) src (Build_Rect centeredX centeredY sw sh) ]
        | _ => [ DrawImage None src cell ]
        end
  end.

(** The effect, for a canvas with its 2D context; [image] is the width
    and height of the image, or [None] without an image (the effect then
    returns at once).  [ySrcSegments[rowIdx]] and [xSrcSegments[colIdx]]
    are read at the positions of the destination segments; a position
    without a source segment gives no operation here, and
    [render_reads_source] shows there is no such position. *)
Definition render (width height : Q) (image : option (Q * Q))
    (xAxes yAxes : list Axis) (tiles : TileMap)
    (rowScaling colScaling : list bool) : list CanvasOp :=
  match image with
  | None => []
  | Some (imageWidth, imageHeight) =>
      let xSrcSegments := calculateSegments xAxes imageWidth colScaling in
      let ySrcSegments := calculateSegments yAxes imageHeight rowScaling in
      let xDstSegments := calculateDestinationSegments xSrcSegments width in
      let yDstSegments := calculateDestinationSegments ySrcSegments height in
      ClearRect (Build_Rect 0 0 width height)
      :: mjoin
           (imap
              (fun rowIdx yDst =>
                 mjoin
                   (imap
                      (fun colIdx xDst =>
                         match ySrcSegments !! rowIdx, xSrcSegments !! colIdx with
                         | Some ySrc, Some xSrc =>
                             let mode :=
                               getEffectiveTileMode tiles rowIdx colIdx in
                             draw_cell mode xSrc ySrc xDst yDst
                         | _, _ => []
                         end)
                      xDstSegments))
              yDstSegments)
  end.

(** ** Selecting an axis *)

(** The [onSelectAxis] callback [App] hands to the grid lines:
    [(id, type) => setSelectedAxis(id && type ? { id, type } : null)];
    an empty string is falsy. *)
Definition onSelectAxis (i : option string) (type : option AxisType)
    (st : AppState.t) : AppState.t :=
  AppState.mk (AppState.filename st)
    (AppState.xAxes st) (AppState.yAxes st)
    (AppState.rowScaling st) (AppState.colScaling st)
    (AppState.tiles st)
    (match i, type with
     | Some i', Some type' =>
         if String.eqb i' "" then None else Some (i', type')
     | _, _ => None
     end).

(** * What the statements are written with *)

Section Vocabulary.
Local Open Scope Q_scope.

Definition ax (i : string) (v : Q) : Axis := {| id := i; value := v |}.

(** [l.reduce((acc, x) => acc + x, 0)] on a list of numbers. *)
Definition Qsum (l : list Q) : Q := fold_left Qplus l 0.

(** [ascending c bs]: [c <= b1 <= b2 <= ...] along [bs]. *)
Fixpoint ascending (c : Q) (bs : list Q) : Prop :=
  match bs with
  | [] => True
  | b :: rest => c <= b /\ ascending b rest
  end.

(** An axis value that is a percentage. *)
Definition percent (a : Axis) : Prop := 0 <= value a /\ value a <= 100.

(** The segments pushed by the loop of [calculateSegments] from index [i]
    and cursor [cursor] onwards, boundary by boundary. *)
Fixpoint walk (scalingArray : list bool) (i : nat) (cursor : Q) (bs : list Q)
    : list Segment.t :=
  match bs with
  | [] => []
  | boundary :: rest =>
      (if Qlt_bool 0 (boundary - cursor)
       then [ Segment.mk cursor (boundary - cursor)
                (negb (default false (scalingArray !! i))) i ]
       else [])
      ++ walk scalingArray (S i) boundary rest
  end.

(** [chain c segs e]: the segments tile the interval from [c] to [e],
    each starting where the one before it ends. *)
Fixpoint chain (c : Q) (segs : list Segment.t) (e : Q) : Prop :=
  match segs with
  | [] => c == e
  | s :: rest =>
      Segment.start s == c /\
      chain (Segment.start s + Segment.length s) rest e
  end.

(** What the partition of a dimension of size [T] has to satisfy:
    ascending starts, each segment starting where the one before it ends,
    lengths that sum to [T], and no segment of zero (or negative) length. *)
Definition contiguous_partition (T : Q) (segs : list Segment.t) : Prop :=
  (forall (i : nat) (s s' : Segment.t),
      segs !! i = Some s -> segs !! S i = Some s' ->
      Segment.start s < Segment.start s' /\
      Segment.start s + Segment.length s == Segment.start s')
  /\ sum_lengths segs == T
  /\ Forall (fun s => 0 < Segment.length s) segs.

(** The destination segments pushed by the loop of
    [calculateDestinationSegments] from cursor [cursor]. *)
Fixpoint layout (scaleFixed totalScaleSourceLength availableScaleSpace : Q)
    (cursor : Q) (segs : list Segment.t) : list DestSegment.t :=
  match segs with
  | [] => []
  | seg :: rest =>
      let destLength :=
        destLength_of scaleFixed totalScaleSourceLength availableScaleSpace seg in
      DestSegment.mk cursor destLength (Segment.index seg)
      :: layout scaleFixed totalScaleSourceLength availableScaleSpace
           (cursor + destLength) rest
  end.

(** The factor applied to a scalable segment's length. *)
Definition scale_factor (totalScaleSourceLength availableScaleSpace : Q) : Q :=
  if Qeq_bool totalScaleSourceLength 0 then 0
  else availableScaleSpace / totalScaleSourceLength.

(** The sum of the destination lengths,
    [destSegments.reduce((acc, d) => acc + d.length, 0)]. *)
Definition sum_dest_lengths (ds : list DestSegment.t) : Q :=
  fold_left (fun acc d => acc + DestSegment.length d) ds 0.

(** Every fixed source segment keeps its length in the destination. *)
Definition fixed_preserved (segs : list Segment.t) (ds : list DestSegment.t) : Prop :=
  forall (i : nat) (s : Segment.t) (d : DestSegment.t),
    segs !! i = Some s -> ds !! i = Some d ->
    Segment.isFixed s = true ->
    DestSegment.length d = Segment.length s.

(** The destination fills the target and keeps the fixed segments. *)
Definition fills_target (segs : list Segment.t) (S : Q) : Prop :=
  sum_dest_lengths (calculateDestinationSegments segs S) == S
  /\ fixed_preserved segs (calculateDestinationSegments segs S).

(** Every destination length is the source length times [S / totalFixed]. *)
Definition uniformly_shrunk (segs : list Segment.t) (S : Q) : Prop :=
  List.length (calculateDestinationSegments segs S) = List.length segs /\
  forall (i : nat) (s : Segment.t) (d : DestSegment.t),
    segs !! i = Some s ->
    calculateDestinationSegments segs S !! i = Some d ->
    DestSegment.length d = Segment.length s * (S / totalFixed_of segs).

(** Destination lengths in the ratio of the source lengths. *)
Definition proportional (segs : list Segment.t) (ds : list DestSegment.t) : Prop :=
  forall (i j : nat) (si sj : Segment.t) (di dj : DestSegment.t),
    segs !! i = Some si -> segs !! j = Some sj ->
    ds !! i = Some di -> ds !! j = Some dj ->
    ~ Segment.length si == 0 -> ~ Segment.length sj == 0 ->
    DestSegment.length di / DestSegment.length dj
    == Segment.length si / Segment.length sj.

(** Source segments used as concrete inputs: a 400 pixel dimension cut at
    25 and 75 percent with the default flags; a 100 pixel dimension without
    axes; a 400 pixel dimension cut at 25 percent, both parts fixed, and
    both parts scalable. *)
Definition three_slice : list Segment.t :=
  calculateSegments [ax "b" 75; ax "a" 25] 400 [false; true; false].

Definition unsliced : list Segment.t := calculateSegments [] 100 [false].

Definition two_fixed : list Segment.t :=
  calculateSegments [ax "x1" 25] 400 [false; false].

Definition two_scalable : list Segment.t :=
  calculateSegments [ax "x1" 25] 400 [true; true].



(** The mode a key resolves to, whatever cell the key was built from. *)
Definition mode_of_key (tiles : TileMap) (key : string) : TileMode :=
  match tiles !! key with
  | Some cfg => mode cfg
  | None => Stretch
  end.

(** The state [App] starts in (the initial values of its [useState]s). *)
Definition initial_state : AppState.t :=
  AppState.mk "example.jpg"
    [ax "x1" 33; ax "x2" 66] [ax "y1" 33; ax "y2" 66]
    [false; true; false] [false; true; false]
    ∅ None.

(** The document that is written and read back: [JSON.stringify] followed
    by [JSON.parse] returns, for an object made of strings, booleans,
    finite numbers, arrays and plain objects, an object with the same
    fields, so the parsed document is the [config] object itself. *)
Definition export_import (st st' : AppState.t) : AppState.t :=
  handleLoadJson (generateJSON st) st'.

(** A state with one explicit tile, the cell of row 0 and column 1. *)
Definition one_hidden_tile : AppState.t :=
  AppState.mk "example.jpg"
    [ax "x1" 33; ax "x2" 66] [ax "y1" 33; ax "y2" 66]
    [false; true; false] [false; true; false]
    (<[ tile_key 0 1 := {| mode := Hidden |} ]> ∅) None.

(** Every entry of a map built by the export loops holds the mode its key
    resolves to in [tiles]. *)
Definition resolved (tiles explicitTiles : TileMap) : Prop :=
  forall (key : string) (cfg : TileConfig),
    explicitTiles !! key = Some cfg -> mode cfg = mode_of_key tiles key.

(** The axis list and the scaling flags of one dimension: the columns are
    cut by the x axes and flagged by [colScaling], the rows by the y axes
    and [rowScaling]. *)
Definition axes_of (type : AxisType) (st : AppState.t) : list Axis :=
  match type with AxisX => AppState.xAxes st | AxisY => AppState.yAxes st end.

Definition scaling_of (type : AxisType) (st : AppState.t) : list bool :=
  match type with
  | AxisX => AppState.colScaling st
  | AxisY => AppState.rowScaling st
  end.

Definition other (type : AxisType) : AxisType :=
  match type with AxisX => AxisY | AxisY => AxisX end.

(** All axis values of the state are percentages. *)
Definition axes_in_range (st : AppState.t) : Prop :=
  Forall percent (AppState.xAxes st) /\ Forall percent (AppState.yAxes st).

(** One scaling flag per segment, in both dimensions. *)
Definition scaling_in_sync (st : AppState.t) : Prop :=
  List.length (AppState.colScaling st)
  = (List.length (AppState.xAxes st) + 1)%nat /\
  List.length (AppState.rowScaling st)
  = (List.length (AppState.yAxes st) + 1)%nat.

(** How many axes of the list carry the identifier [i]. *)
Definition count_id (i : string) (axes : list Axis) : nat :=
  List.length (List.filter (fun a => String.eqb (id a) i) axes).

(** A document whose only x axis stands at 150 percent. *)
Definition out_of_range_document : NSliceConfig.t :=
  NSliceConfig.mk None (Some [ax "a" 150]) (Some []) None None None.

(** A legacy document: two x axes, one y axis, no scaling arrays. *)
Definition legacy_document : NSliceConfig.t :=
  NSliceConfig.mk None (Some [ax "x1" 33; ax "x2" 66]) (Some [ax "y1" 50])
    None None None.

(** A document with one flag per segment in which two x axes carry the
    same identifier, and the state after loading it. *)
Definition twin_axes_document : NSliceConfig.t :=
  NSliceConfig.mk None (Some [ax "a" 10; ax "a" 20]) (Some [])
    None (Some [false]) (Some [false; true; false]).

Definition twin_axes_state : AppState.t :=
  handleLoadJson twin_axes_document initial_state.



(** Two segments that are the same piece of the dimension: equal numbers
    for [start] and [length], the same flag and index. *)
Definition segment_eq (s s' : Segment.t) : Prop :=
  Segment.start s == Segment.start s' /\
  Segment.length s == Segment.length s' /\
  Segment.isFixed s = Segment.isFixed s' /\
  Segment.index s = Segment.index s'.

(** Two axis lists with, position by position, equal values. *)
Definition same_values (l l' : list Axis) : Prop :=
  Forall2 (fun a b => value a == value b) l l'.

(** [strictly_ascending c bs]: [c < b1 < b2 < ...] along [bs]. *)
Fixpoint strictly_ascending (c : Q) (bs : list Q) : Prop :=
  match bs with
  | [] => True
  | b :: rest => c < b /\ strictly_ascending b rest
  end.

(** No two axes of the list have the same value. *)
Fixpoint distinct_values (axes : list Axis) : Prop :=
  match axes with
  | [] => True
  | a :: rest =>
      Forall (fun b => ~ value a == value b) rest /\ distinct_values rest
  end.

(** An axis strictly inside the dimension. *)
Definition interior (a : Axis) : Prop := 0 < value a /\ value a < 100.

(** The segment with index [i] is the gap between the boundary before the
    [i]-th one (0 for the first) and the [i]-th boundary. *)
Definition is_gap (bs : list Q) (s : Segment.t) : Prop :=
  exists lo hi : Q,
    (0 :: bs) !! Segment.index s = Some lo /\
    bs !! Segment.index s = Some hi /\
    Segment.start s = lo /\ Segment.length s = hi - lo /\ lo < hi.

(** The boundary [hi] closes the segment [s]: it is the boundary of the
    segment's index, it lies beyond the segment's start, and the segment's
    length is the difference the loop computes, [boundary - cursor]. *)
Definition closed_by (bs : list Q) (s : Segment.t) (hi : Q) : Prop :=
  bs !! Segment.index s = Some hi /\
  Segment.start s < hi /\
  Segment.length s = hi - Segment.start s.

(** The segments are cut at the boundaries: the first starts at 0, each
    next one starts at the boundary that closes the one before it, and the
    boundary that closes the last one is [T]. *)
Definition cut_at_boundaries (T : Q) (bs : list Q) (segs : list Segment.t) : Prop :=
  (forall s : Segment.t, segs !! 0%nat = Some s -> Segment.start s == 0)
  /\ (forall (i : nat) (s s' : Segment.t),
        segs !! i = Some s -> segs !! S i = Some s' ->
        exists hi : Q, closed_by bs s hi /\ Segment.start s' == hi)
  /\ (forall s : Segment.t,
        last segs = Some s -> exists hi : Q, closed_by bs s hi /\ hi == T).

(** The destination segments start at 0 and each starts where the one
    before it ends. *)
Definition dest_contiguous (ds : list DestSegment.t) : Prop :=
  (forall d : DestSegment.t,
      ds !! 0%nat = Some d -> DestSegment.start d = 0)
  /\ (forall (i : nat) (d d' : DestSegment.t),
        ds !! i = Some d -> ds !! S i = Some d' ->
        DestSegment.start d' = DestSegment.start d + DestSegment.length d).

(** A destination segment that is its source segment, unmoved and
    unscaled. *)
Definition same_piece (s : Segment.t) (d : DestSegment.t) : Prop :=
  DestSegment.start d == Segment.start s /\
  DestSegment.length d == Segment.length s /\
  DestSegment.srcIndex d = Segment.index s.

(** The fixed segments are shrunk to fill the target and the scalable
    ones are collapsed. *)
Definition shrunk_to_target (segs : list Segment.t) (S : Q) : Prop :=
  sum_dest_lengths (calculateDestinationSegments segs S) == S
  /\ forall (i : nat) (s : Segment.t) (d : DestSegment.t),
       segs !! i = Some s ->
       calculateDestinationSegments segs S !! i = Some d ->
       Segment.isFixed s = false -> DestSegment.length d == 0.

(** A string without the character [-]. *)
Fixpoint no_dash (s : string) : Prop :=
  match s with
  | EmptyString => True
  | String a rest => String a EmptyString <> "-" /\ no_dash rest
  end.

(** The keys of the cells of a grid of [numRows] rows and [numCols]
    columns. *)
Definition grid_key (numRows numCols : nat) (key : string) : Prop :=
  exists r c : nat, (r < numRows)%nat /\ (c < numCols)%nat /\ key = tile_key r c.

(** The identifier [handleAddAxis] gives the axis it adds at time [now]. *)
Definition new_axis_id (now : N) (type : AxisType) : string :=
  axis_type_string type +:+ pretty now.

(** The state with no axis selected. *)
Definition deselect (st : AppState.t) : AppState.t :=
  AppState.mk (AppState.filename st)
    (AppState.xAxes st) (AppState.yAxes st)
    (AppState.rowScaling st) (AppState.colScaling st)
    (AppState.tiles st) None.

(** The segment with its fixed flag negated when its index is [i]. *)
Definition flip_at (i : nat) (s : Segment.t) : Segment.t :=
  if Segment.index s =? i
  then Segment.mk (Segment.start s) (Segment.length s)
         (negb (Segment.isFixed s)) (Segment.index s)
  else s.

(** Every destination segment lies between 0 and [S]. *)
Definition within (S : Q) (d : DestSegment.t) : Prop :=
  0 <= DestSegment.start d /\
  DestSegment.start d + DestSegment.length d <= S.

(** A rectangle of positive width and height. *)
Definition positive_rect (r : Rect) : Prop := 0 < rect_w r /\ 0 < rect_h r.


(** The point [(px, py)] lies in the rectangle (right and bottom edges
    excluded). *)
Definition in_rect (px py : Q) (r : Rect) : Prop :=
  rect_x r <= px /\ px < rect_x r + rect_w r /\
  rect_y r <= py /\ py < rect_y r + rect_h r.

(** A canvas operation that draws something: the source rectangle has
    positive size; an unclipped draw has a destination of positive size;
    a clipped draw has a clip of positive size and copies the source at
    its own size. *)
Definition draws_something (op : CanvasOp) : Prop :=
  match op with
  | ClearRect _ => True
  | DrawImage None src dst => positive_rect src /\ positive_rect dst
  | DrawImage (Some clip) src dst =>
      positive_rect src /\ positive_rect clip /\
      rect_w dst = rect_w src /\ rect_h dst = rect_h src
  end.

(** The cell of the destination and the piece of the source that
    [draw_cell] works with. *)
Definition cell_of (xDst yDst : DestSegment.t) : Rect :=
  Build_Rect (DestSegment.start xDst) (DestSegment.start yDst)
    (DestSegment.length xDst) (DestSegment.length yDst).

Definition source_of (xSrc ySrc : Segment.t) : Rect :=
  Build_Rect (Segment.start xSrc) (Segment.start ySrc)
    (Segment.length xSrc) (Segment.length ySrc).

(** A source segment and a destination segment of a draw of the [3 x 2]
    repeat scenario: a 20 by 20 tile in a 45 by 30 cell. *)
Definition tile20 : Segment.t := Segment.mk 0 20 true 0.

Definition cell45 : DestSegment.t := DestSegment.mk 0 45 0.

Definition cell30 : DestSegment.t := DestSegment.mk 0 30 0.

(** The draws of a repeat cell: each copies the source piece at its own
    size, clipped to the cell, with its top left corner inside the cell;
    and every point of the cell is under one of them. *)
Definition tiles_cell (src cell : Rect) (ops : list CanvasOp) : Prop :=
  (forall op : CanvasOp,
      op ∈ ops ->
      exists tile : Rect,
        op = DrawImage (Some cell) src tile /\
        rect_w tile = rect_w src /\ rect_h tile = rect_h src /\
        in_rect (rect_x tile) (rect_y tile) cell)
  /\ (forall px py : Q,
        in_rect px py cell ->
        exists tile : Rect,
          DrawImage (Some cell) src tile ∈ ops /\ in_rect px py tile).

(** Source and destination segments of positive length. *)
Definition drawable (xSrc ySrc : Segment.t) (xDst yDst : DestSegment.t) : Prop :=
  0 < Segment.length xSrc /\ 0 < Segment.length ySrc /\
  0 < DestSegment.length xDst /\ 0 < DestSegment.length yDst.

(** The rectangle lies on a canvas of the given width and height. *)
Definition on_canvas (width height : Q) (r : Rect) : Prop :=
  0 <= rect_x r /\ rect_x r + rect_w r <= width /\
  0 <= rect_y r /\ rect_y r + rect_h r <= height.

(** What an operation may paint lies on the canvas: the destination of an
    unclipped draw, the clip of a clipped one. *)
Definition paints_on_canvas (width height : Q) (op : CanvasOp) : Prop :=
  match op with
  | ClearRect r => r = Build_Rect 0 0 width height
  | DrawImage None _ dst => on_canvas width height dst
  | DrawImage (Some clip) _ _ => on_canvas width height clip
  end.


(** What the editor does to the state when it is used through its
    controls, without loading a document: the inspector adds an axis (at
    a time whose identifier is not in use), deletes or re-positions the
    selected axis, toggles the flag of a row or column it shows, sets the
    mode of a tile; the grid lines select an axis they show (mouse down
    on its handle) and drag one over a container of nonzero size. *)
Inductive ui_step : AppState.t -> AppState.t -> Prop :=
| ui_add (now : N) (type : AxisType) (st : AppState.t) :
    count_id (new_axis_id now type) (axes_of type st) = 0%nat ->
    ui_step st (handleAddAxis now type st)
| ui_delete (i : string) (type : AxisType) (st : AppState.t) :
    AppState.selectedAxis st = Some (i, type) ->
    ui_step st (handleDeleteAxis i type st)
| ui_entry (i : string) (type : AxisType) (val : ParsedNumber) (st : AppState.t) :
    AppState.selectedAxis st = Some (i, type) ->
    ui_step st (updateAxisValue i type val st)
| ui_select (a : Axis) (type : AxisType) (st : AppState.t) :
    a ∈ axes_of type st ->
    ui_step st (onSelectAxis (Some (id a)) (Some type) st)
| ui_drag (dragging : option (string * AxisType)) (rect : option (Q * Q))
    (clientX clientY width height : Q) (st : AppState.t) :
    ~ width == 0 -> ~ height == 0 ->
    ui_step st (handleMouseMove dragging rect clientX clientY width height st)
| ui_toggle_row (r : nat) (st st' : AppState.t) :
    (r < List.length (AppState.yAxes st) + 1)%nat ->
    toggleRowScaling r st = Some st' ->
    ui_step st st'
| ui_toggle_col (c : nat) (st st' : AppState.t) :
    (c < List.length (AppState.xAxes st) + 1)%nat ->
    toggleColScaling c st = Some st' ->
    ui_step st st'
| ui_tile (r c : nat) (m : TileMode) (st : AppState.t) :
    ui_step st (handleTileChange r c m st).

(** The selected axis, if any, is an axis of its dimension. *)
Definition selection_valid (st : AppState.t) : Prop :=
  forall (i : string) (type : AxisType),
    AppState.selectedAxis st = Some (i, type) ->
    i ∈ map id (axes_of type st).

(** What holds of the state as long as no document is loaded. *)
Definition editor_invariant (st : AppState.t) : Prop :=
  axes_in_range st /\ scaling_in_sync st /\
  NoDup (map id (AppState.xAxes st)) /\ NoDup (map id (AppState.yAxes st)) /\
  selection_valid st.

(** A destination segment that is its source segment scaled by [k] from
    the origin. *)
Definition scaled_by (k : Q) (s : Segment.t) (d : DestSegment.t) : Prop :=
  DestSegment.start d == k * Segment.start s /\
  DestSegment.length d == k * Segment.length s.

(** The cells of a grid, row by row, with the entry the export writes for
    each. *)
Definition grid_entries (tiles : TileMap) (numRows numCols : nat)
    : list (string * TileConfig) :=
  r ← seq 0 numRows;
  c ← seq 0 numCols;
  [ (tile_key r c, {| mode := getEffectiveTileMode tiles r c |}) ].

End Vocabulary.

(** * Properties *)

(** ** Comparisons and sums of rationals *)

Section Rationals.
Local Open Scope Q_scope.

Lemma Qlt_bool_iff (x y : Q) : Qlt_bool x y = true <-> x < y.
Proof.
  unfold Qlt_bool. rewrite negb_true_iff.
  split; intros H.
  - apply Qnot_le_lt. intros Hle. apply Qle_bool_iff in Hle. congruence.
  - destruct (Qle_bool y x) eqn:E; [|reflexivity].
    apply Qle_bool_iff in E. lra.
Qed.

Lemma Qlt_bool_false (x y : Q) : Qlt_bool x y = false <-> y <= x.
Proof.
  unfold Qlt_bool. rewrite negb_false_iff. apply Qle_bool_iff.
Qed.

Lemma Qeq_bool_false (x y : Q) : Qeq_bool x y = false <-> ~ x == y.
Proof.
  split.
  - intros E H. apply Qeq_bool_iff in H. congruence.
  - intros H. destruct (Qeq_bool x y) eqn:E; [|reflexivity].
    apply Qeq_bool_iff in E. contradiction.
Qed.

Lemma fold_left_Qplus_shift (l : list Q) (a : Q) :
  fold_left Qplus l a == a + Qsum l.
Proof.
  unfold Qsum. revert a.
  induction l as [|x l IH]; intros a; simpl.
  - lra.
  - rewrite (IH (a + x)), (IH (0 + x)). lra.
Qed.

Lemma Qsum_nil : Qsum [] = 0.
Proof. reflexivity. Qed.

Lemma Qsum_cons (x : Q) (l : list Q) : Qsum (x :: l) == x + Qsum l.
Proof.
  unfold Qsum at 1. simpl. rewrite fold_left_Qplus_shift. lra.
Qed.

Lemma Qsum_app (l1 l2 : list Q) : Qsum (l1 ++ l2) == Qsum l1 + Qsum l2.
Proof.
  induction l1 as [|x l1 IH]; simpl.
  - rewrite Qsum_nil. lra.
  - rewrite !Qsum_cons, IH. lra.
Qed.

Lemma sum_lengths_Qsum (segs : list Segment.t) :
  sum_lengths segs = Qsum (map Segment.length segs).
Proof.
  unfold sum_lengths, Qsum. generalize 0.
  induction segs as [|s segs IH]; intros a; simpl; [reflexivity|].
  apply IH.
Qed.

Lemma sum_lengths_cons (s : Segment.t) (segs : list Segment.t) :
  sum_lengths (s :: segs) == Segment.length s + sum_lengths segs.
Proof. rewrite !sum_lengths_Qsum. simpl. apply Qsum_cons. Qed.

End Rationals.

(** ** The sort of the axes *)

Section Sorting.
Local Open Scope Q_scope.

Lemma ascending_weaken (c c' : Q) (bs : list Q) :
  c' <= c -> ascending c bs -> ascending c' bs.
Proof.
  destruct bs as [|b bs]; simpl; [tauto|].
  intros Hc [Hb Hr]. split; [lra|exact Hr].
Qed.

Lemma ascending_snoc (c t : Q) (bs : list Q) :
  ascending c bs -> c <= t -> Forall (fun b => b <= t) bs ->
  ascending c (bs ++ [t]).
Proof.
  revert c. induction bs as [|b bs IH]; intros c Hasc Hc Hall; simpl.
  - split; [exact Hc|exact I].
  - destruct Hasc as [Hb Hr]. inversion Hall as [|? ? Hbt Hall']; subst.
    split; [exact Hb|]. apply IH; assumption.
Qed.

Lemma insert_axis_perm (a : Axis) (l : list Axis) :
  Permutation (insert_axis a l) (a :: l).
Proof.
  induction l as [|b l IH]; simpl; [reflexivity|].
  destruct (Qle_bool (value a) (value b)); [reflexivity|].
  rewrite IH. apply perm_swap.
Qed.

Lemma sort_axes_perm (axes : list Axis) : Permutation (sort_axes axes) axes.
Proof.
  induction axes as [|a axes IH]; simpl; [reflexivity|].
  rewrite insert_axis_perm. constructor. exact IH.
Qed.

Lemma sort_axes_length (axes : list Axis) :
  List.length (sort_axes axes) = List.length axes.
Proof. apply Permutation_length, sort_axes_perm. Qed.

Lemma insert_axis_ascending (c : Q) (a : Axis) (l : list Axis) :
  c <= value a -> ascending c (map value l) ->
  ascending c (map value (insert_axis a l)).
Proof.
  revert c. induction l as [|b l IH]; intros c Hc Hasc; simpl.
  - split; [exact Hc|exact I].
  - destruct Hasc as [Hb Hr].
    destruct (Qle_bool (value a) (value b)) eqn:E; simpl.
    + apply Qle_bool_iff in E. repeat split; assumption.
    + split; [exact Hb|]. apply IH; [|exact Hr].
      assert (~ value a <= value b) as Hn.
      { intros Hle. apply Qle_bool_iff in Hle. congruence. }
      lra.
Qed.

Lemma sort_axes_ascending (c : Q) (axes : list Axis) :
  Forall (fun a => c <= value a) axes ->
  ascending c (map value (sort_axes axes)).
Proof.
  induction 1 as [|a axes Ha Hall IH]; simpl; [exact I|].
  apply insert_axis_ascending; assumption.
Qed.

End Sorting.

(** ** The segment partitioner *)

Section Partition.
Local Open Scope Q_scope.
Variable scalingArray : list bool.

Lemma fold_segment_step (bs : list Q) (k : nat) (acc : list Segment.t) (cursor : Q) :
  fst (fold_left (segment_step scalingArray)
         (imap (fun j b => (k + j, b)%nat) bs) (acc, cursor))
  = acc ++ walk scalingArray k cursor bs.
Proof.
  revert k acc cursor.
  induction bs as [|b bs IH]; intros k acc cursor; simpl.
  - symmetry. apply app_nil_r.
  - rewrite Nat.add_0_r.
    rewrite (imap_ext _ (fun j b => (S k + j, b)%nat) bs).
    2:{ intros j x _. simpl. f_equal. lia. }
    destruct (Qlt_bool 0 (b - cursor)).
    + rewrite IH. rewrite <- app_assoc. reflexivity.
    + rewrite IH. reflexivity.
Qed.

Lemma calculateSegments_walk (axes : list Axis) (totalSize : Q) :
  calculateSegments axes totalSize scalingArray
  = walk scalingArray 0 0 (boundaries_of (sort_axes axes) totalSize).
Proof.
  unfold calculateSegments.
  rewrite (imap_ext _ (fun j b => (0 + j, b)%nat) _).
  2:{ intros; reflexivity. }
  apply (fold_segment_step _ 0%nat []).
Qed.

Lemma chain_start_eq (c c' e : Q) (segs : list Segment.t) :
  c == c' -> chain c segs e -> chain c' segs e.
Proof.
  destruct segs as [|s segs]; simpl.
  - intros H1 H2. lra.
  - intros H1 [H2 H3]. split; [lra|exact H3].
Qed.

Lemma last_cons_default (b c : Q) (bs : list Q) :
  List.last (b :: bs) c = List.last bs b.
Proof.
  revert b c. induction bs as [|x bs IH]; intros b c; [reflexivity|].
  change (List.last (b :: x :: bs) c) with (List.last (x :: bs) c).
  rewrite !IH. reflexivity.
Qed.

Lemma walk_chain (i : nat) (c : Q) (bs : list Q) :
  ascending c bs -> chain c (walk scalingArray i c bs) (List.last bs c).
Proof.
  revert i c. induction bs as [|b bs IH]; intros i c Hasc.
  - simpl. reflexivity.
  - destruct Hasc as [Hcb Hr].
    rewrite last_cons_default.
    simpl walk. destruct (Qlt_bool 0 (b - c)) eqn:E.
    + simpl. split; [reflexivity|].
      apply chain_start_eq with b; [lra|]. apply IH, Hr.
    + apply Qlt_bool_false in E. simpl.
      apply chain_start_eq with b; [lra|]. apply IH, Hr.
Qed.

Lemma walk_positive (i : nat) (c : Q) (bs : list Q) :
  Forall (fun s => 0 < Segment.length s) (walk scalingArray i c bs).
Proof.
  revert i c. induction bs as [|b bs IH]; intros i c; simpl; [constructor|].
  destruct (Qlt_bool 0 (b - c)) eqn:E; simpl; [|apply IH].
  constructor; [|apply IH]. simpl. apply Qlt_bool_iff, E.
Qed.

Lemma walk_length (i : nat) (c : Q) (bs : list Q) :
  (List.length (walk scalingArray i c bs) <= List.length bs)%nat.
Proof.
  revert i c. induction bs as [|b bs IH]; intros i c; simpl; [lia|].
  rewrite length_app. specialize (IH (S i) b).
  destruct (Qlt_bool 0 (b - c)); simpl; lia.
Qed.

Lemma chain_sum (c e : Q) (segs : list Segment.t) :
  chain c segs e -> sum_lengths segs == e - c.
Proof.
  revert c. induction segs as [|s segs IH]; intros c; simpl.
  - intros H. unfold sum_lengths. simpl. lra.
  - intros [H1 H2]. rewrite sum_lengths_cons, (IH _ H2). lra.
Qed.

Lemma chain_adjacent (c e : Q) (segs : list Segment.t) (i : nat) (s s' : Segment.t) :
  chain c segs e ->
  segs !! i = Some s -> segs !! S i = Some s' ->
  Segment.start s + Segment.length s == Segment.start s'.
Proof.
  revert c i. induction segs as [|x segs IH]; intros c i Hch Hs Hs'.
  - discriminate.
  - destruct Hch as [Hx Hrest]. destruct i as [|i].
    + simpl in Hs. injection Hs as ->.
      destruct segs as [|y segs]; [discriminate|].
      simpl in Hs'. injection Hs' as ->.
      destruct Hrest as [Hy _]. lra.
    + apply (IH _ i Hrest); assumption.
Qed.

End Partition.

(** *** Which gaps between boundaries become segments *)

Section Gaps.
Local Open Scope Q_scope.
Variable scalingArray : list bool.

Lemma walk_index_bounds (i : nat) (c : Q) (bs : list Q) :
  Forall (fun s => (i <= Segment.index s < i + List.length bs)%nat)
    (walk scalingArray i c bs).
Proof.
  revert i c. induction bs as [|b bs IH]; intros i c; simpl; [constructor|].
  apply Forall_app. split.
  - destruct (Qlt_bool 0 (b - c)); repeat constructor; simpl; lia.
  - eapply Forall_impl; [apply IH|]. simpl. intros s Hs. lia.
Qed.

Lemma walk_index_sorted (i : nat) (c : Q) (bs : list Q) :
  StronglySorted lt (map Segment.index (walk scalingArray i c bs)).
Proof.
  revert i c. induction bs as [|b bs IH]; intros i c; simpl; [constructor|].
  destruct (Qlt_bool 0 (b - c)); simpl; [|apply IH].
  constructor; [apply IH|].
  apply List.Forall_map.
  eapply Forall_impl; [apply (walk_index_bounds (S i) b bs)|].
  simpl. intros s Hs. lia.
Qed.

Lemma drop_cons_inv (all : list Q) (i : nat) (b : Q) (rest : list Q) :
  drop i all = b :: rest -> all !! i = Some b /\ drop (S i) all = rest.
Proof.
  intros Hdrop. split.
  - rewrite <- (Nat.add_0_r i), <- lookup_drop, Hdrop. reflexivity.
  - replace (S i) with (i + 1)%nat by lia.
    rewrite <- drop_drop, Hdrop. reflexivity.
Qed.

Lemma walk_gap_sound (all : list Q) (bs : list Q) (i : nat) (c : Q) :
  (0 :: all) !! i = Some c -> drop i all = bs ->
  Forall (is_gap all) (walk scalingArray i c bs).
Proof.
  revert i c. induction bs as [|b bs IH]; intros i c Hc Hdrop; simpl;
    [constructor|].
  apply drop_cons_inv in Hdrop as [Hb Hrest].
  apply Forall_app. split; [|apply IH; assumption].
  destruct (Qlt_bool 0 (b - c)) eqn:E; [|constructor].
  apply Qlt_bool_iff in E.
  constructor; [|constructor].
  exists c, b. simpl. repeat split; try assumption. lra.
Qed.

Lemma walk_gap_complete (all : list Q) (bs : list Q) (i : nat) (c : Q)
    (j : nat) (lo hi : Q) :
  (0 :: all) !! i = Some c -> drop i all = bs ->
  (i <= j)%nat -> (0 :: all) !! j = Some lo -> all !! j = Some hi -> lo < hi ->
  exists s : Segment.t,
    s ∈ walk scalingArray i c bs /\ Segment.index s = j.
Proof.
  revert i c. induction bs as [|b bs IH]; intros i c Hc Hdrop Hij Hlo Hhi Hlt.
  - exfalso. apply lookup_lt_Some in Hhi.
    pose proof (f_equal List.length Hdrop) as Hlen.
    rewrite length_drop in Hlen. simpl in Hlen. lia.
  - apply drop_cons_inv in Hdrop as [Hb Hrest]. simpl.
    destruct (decide (i = j)) as [->|Hne].
    + assert (lo = c) as -> by congruence.
      assert (hi = b) as -> by congruence.
      assert (Qlt_bool 0 (b - c) = true) as -> by (apply Qlt_bool_iff; lra).
      eexists. split; [apply elem_of_app; left; apply list_elem_of_singleton;
                       reflexivity|reflexivity].
    + destruct (IH (S i) b) as (s & Hs & Hidx);
        [exact Hb|exact Hrest|lia|exact Hlo|exact Hhi|exact Hlt|].
      exists s. split; [apply elem_of_app; right; exact Hs|exact Hidx].
Qed.

Lemma walk_strictly_ascending (i : nat) (c : Q) (bs : list Q) :
  strictly_ascending c bs ->
  map Segment.index (walk scalingArray i c bs) = seq i (List.length bs).
Proof.
  revert i c. induction bs as [|b bs IH]; intros i c; simpl; [reflexivity|].
  intros [Hcb Hrest].
  assert (Qlt_bool 0 (b - c) = true) as -> by (apply Qlt_bool_iff; lra).
  simpl. f_equal. apply IH, Hrest.
Qed.

Lemma walk_all_emitted (i : nat) (c : Q) (bs : list Q) :
  map Segment.index (walk scalingArray i c bs) = seq i (List.length bs) ->
  strictly_ascending c bs.
Proof.
  revert i c. induction bs as [|b bs IH]; intros i c; simpl; [tauto|].
  destruct (Qlt_bool 0 (b - c)) eqn:E; simpl.
  - intros [= Hrest]. apply Qlt_bool_iff in E.
    split; [lra|]. apply (IH _ _ Hrest).
  - intros H. exfalso.
    pose proof (f_equal List.length H) as Hlen.
    rewrite length_map in Hlen. simpl in Hlen. rewrite length_seq in Hlen.
    pose proof (walk_length scalingArray (S i) b bs). lia.
Qed.

End Gaps.

Section PartitionTheorems.
Local Open Scope Q_scope.

Lemma scale_le (v w T : Q) : 0 <= T -> v <= w -> v / 100 * T <= w / 100 * T.
Proof.
  intros HT Hvw. apply Qmult_le_compat_r; [|exact HT].
  unfold Qdiv. apply Qmult_le_compat_r; [exact Hvw|]. discriminate.
Qed.

Lemma ascending_scale (c T : Q) (vs : list Q) :
  0 <= T -> ascending c vs ->
  ascending (c / 100 * T) (map (fun v => v / 100 * T) vs).
Proof.
  intros HT. revert c.
  induction vs as [|v vs IH]; intros c; simpl; [tauto|].
  intros [Hcv Hr]. split; [apply scale_le; assumption|]. apply IH, Hr.
Qed.

Lemma boundaries_ascending (axes : list Axis) (T : Q) :
  0 <= T -> Forall percent axes ->
  ascending 0 (boundaries_of (sort_axes axes) T).
Proof.
  intros HT Hall. unfold boundaries_of.
  assert (Forall percent (sort_axes axes)) as Hs.
  { eapply Permutation_Forall; [|exact Hall].
    symmetry. apply sort_axes_perm. }
  apply ascending_snoc.
  - rewrite <- (map_map value (fun v => v / 100 * T)).
    apply ascending_weaken with (0 / 100 * T).
    + assert (0 / 100 * T == 0) as -> by (unfold Qdiv; ring). lra.
    + apply ascending_scale; [exact HT|].
      apply sort_axes_ascending.
      eapply Forall_impl; [exact Hall|]. intros a [H0 _]. exact H0.
  - exact HT.
  - apply List.Forall_map. eapply Forall_impl; [exact Hs|].
    intros a [_ H100]. simpl.
    assert (T == 100 / 100 * T) as Heq by field.
    rewrite Heq at 2. apply scale_le; assumption.
Qed.

Lemma chain_partition (T : Q) (segs : list Segment.t) :
  chain 0 segs T -> Forall (fun s => 0 < Segment.length s) segs ->
  contiguous_partition T segs.
Proof.
  intros Hch Hpos. split; [|split].
  - intros i s s' Hs Hs'.
    pose proof (chain_adjacent _ _ _ _ _ _ Hch Hs Hs') as Hadj.
    assert (0 < Segment.length s) as Hlen.
    { rewrite Forall_forall in Hpos. apply Hpos.
      apply list_elem_of_lookup. eauto. }
    split; lra.
  - rewrite (chain_sum _ _ _ Hch). lra.
  - exact Hpos.
Qed.

Lemma chain_first (c e : Q) (segs : list Segment.t) (s : Segment.t) :
  chain c segs e -> segs !! 0%nat = Some s -> Segment.start s == c.
Proof.
  destruct segs as [|x segs]; [discriminate|].
  simpl. intros [H _] [= <-]. exact H.
Qed.

Lemma chain_last (c e : Q) (segs : list Segment.t) (s : Segment.t) :
  chain c segs e -> last segs = Some s ->
  Segment.start s + Segment.length s == e.
Proof.
  revert c. induction segs as [|x segs IH]; intros c Hch Hlast;
    [discriminate|].
  destruct Hch as [_ Hch]. destruct segs as [|y segs].
  - injection Hlast as <-. exact Hch.
  - apply (IH _ Hch). exact Hlast.
Qed.

Lemma is_gap_closed_by (bs : list Q) (s : Segment.t) :
  is_gap bs s -> exists hi : Q, closed_by bs s hi.
Proof.
  intros (lo & hi & _ & Hhi & Hstart & Hlen & Hlt).
  exists hi. unfold closed_by. rewrite Hstart. auto.
Qed.

Lemma chain_cut_at_boundaries (T : Q) (bs : list Q) (segs : list Segment.t) :
  chain 0 segs T -> Forall (is_gap bs) segs -> cut_at_boundaries T bs segs.
Proof.
  intros Hch Hgaps.
  assert (forall s, s ∈ segs -> exists hi : Q, closed_by bs s hi) as Hclosed.
  { intros s Hs. apply is_gap_closed_by.
    rewrite Forall_forall in Hgaps. apply Hgaps, Hs. }
  split; [|split].
  - intros s Hs. apply (chain_first _ _ _ _ Hch Hs).
  - intros i s s' Hs Hs'.
    destruct (Hclosed s) as (hi & Hhi); [apply list_elem_of_lookup; eauto|].
    exists hi. split; [exact Hhi|].
    pose proof (chain_adjacent _ _ _ _ _ _ Hch Hs Hs') as Hadj.
    destruct Hhi as (_ & _ & Hlen). rewrite Hlen in Hadj. lra.
  - intros s Hs.
    destruct (Hclosed s) as (hi & Hhi).
    { apply last_Some in Hs as [l' ->]. apply elem_of_app. right.
      apply list_elem_of_singleton. reflexivity. }
    exists hi. split; [exact Hhi|].
    pose proof (chain_last _ _ _ _ Hch Hs) as Hend.
    destruct Hhi as (_ & _ & Hlen). rewrite Hlen in Hend. lra.
Qed.

(** C2, amended: with the axis values in [0,100] and [T > 0] the segments
    of [calculateSegments] are cut at the boundaries: the first starts at
    0, every segment has the positive length [boundary - start] that the
    loop computes from the boundary of its index, the next segment starts
    at that boundary, and the boundary of the last segment is [T].  Hence,
    in exact arithmetic (the source rounds the subtraction, so that there
    [start + length] is the boundary up to that rounding only), the
    segments are ascending in [start], contiguous, of positive length, and
    their lengths sum to [T]. *)
Theorem calculateSegments_partition
    (axes : list Axis) (T : Q) (scalingArray : list bool) :
  0 < T -> Forall percent axes ->
  cut_at_boundaries T (boundaries_of (sort_axes axes) T)
    (calculateSegments axes T scalingArray)
  /\ contiguous_partition T (calculateSegments axes T scalingArray).
Proof.
  intros HT Hall. rewrite calculateSegments_walk.
  pose proof (walk_chain scalingArray 0 0 _
                (boundaries_ascending axes T (Qlt_le_weak _ _ HT) Hall)) as H.
  unfold boundaries_of in H at 2. rewrite last_last in H.
  split.
  - apply chain_cut_at_boundaries; [exact H|].
    apply walk_gap_sound; reflexivity.
  - apply chain_partition; [exact H|apply walk_positive].
Qed.

Lemma calculateSegments_partition_witness :
  0 < 400 /\ Forall percent [ax "b" 75; ax "a" 25] /\
  cut_at_boundaries 400 (boundaries_of (sort_axes [ax "b" 75; ax "a" 25]) 400)
    three_slice /\
  contiguous_partition 400 three_slice.
Proof.
  assert (0 < 400) as HT by reflexivity.
  assert (Forall percent [ax "b" 75; ax "a" 25]) as Hall
    by (repeat constructor; simpl; discriminate).
  split; [exact HT|]. split; [exact Hall|].
  exact (calculateSegments_partition _ _ [false; true; false] HT Hall).
Defined.

(** C2 as stated fails: an axis at 150 percent of a dimension of size 100
    yields one segment of length 150. *)
Lemma calculateSegments_partition_out_of_range :
  0 < 100 /\
  ~ contiguous_partition 100 (calculateSegments [ax "a" 150] 100 [false; true]).
Proof.
  split; [reflexivity|].
  intros (_ & Hsum & _). vm_compute in Hsum. discriminate.
Qed.

End PartitionTheorems.

(** ** The destination layout *)

Section Layout.
Local Open Scope Q_scope.
Variables scaleFixed totalScaleSourceLength availableScaleSpace : Q.

Local Abbreviation destLength :=
  (destLength_of scaleFixed totalScaleSourceLength availableScaleSpace).

Lemma fold_dest_step (segs : list Segment.t) (acc : list DestSegment.t) (cursor : Q) :
  fst (fold_left
         (dest_step scaleFixed totalScaleSourceLength availableScaleSpace)
         segs (acc, cursor))
  = acc ++ layout scaleFixed totalScaleSourceLength availableScaleSpace cursor segs.
Proof.
  revert acc cursor.
  induction segs as [|seg segs IH]; intros acc cursor; simpl.
  - symmetry. apply app_nil_r.
  - rewrite IH, <- app_assoc. reflexivity.
Qed.

Lemma layout_lengths (cursor : Q) (segs : list Segment.t) :
  map DestSegment.length (layout scaleFixed totalScaleSourceLength availableScaleSpace cursor segs) = map destLength segs.
Proof.
  revert cursor. induction segs as [|seg segs IH]; intros cursor; simpl.
  - reflexivity.
  - rewrite IH. reflexivity.
Qed.


Lemma destLength_scalable (seg : Segment.t) :
  Segment.isFixed seg = false ->
  destLength seg
  == scale_factor totalScaleSourceLength availableScaleSpace * Segment.length seg.
Proof.
  intros Hs. unfold destLength_of, scale_factor. rewrite Hs.
  destruct (Qeq_bool totalScaleSourceLength 0) eqn:E.
  - ring.
  - apply Qeq_bool_false in E. cbv zeta. field. exact E.
Qed.

Lemma Qsum_destLength (segs : list Segment.t) :
  Qsum (map destLength segs)
  == scaleFixed * sum_lengths (List.filter (fun s => Segment.isFixed s) segs)
     + scale_factor totalScaleSourceLength availableScaleSpace
       * sum_lengths (List.filter (fun s => negb (Segment.isFixed s)) segs).
Proof.
  induction segs as [|seg segs IH]; simpl.
  - unfold sum_lengths. simpl. rewrite Qsum_nil. ring.
  - rewrite Qsum_cons, IH.
    destruct (Segment.isFixed seg) eqn:E; simpl.
    + rewrite sum_lengths_cons. unfold destLength_of. rewrite E. ring.
    + rewrite sum_lengths_cons, (destLength_scalable seg E). ring.
Qed.

End Layout.

Section LayoutTheorems.
Local Open Scope Q_scope.

Lemma calculateDestinationSegments_layout (segs : list Segment.t) (S : Q) :
  calculateDestinationSegments segs S
  = layout (scaleFixed_of segs S) (totalScaleSourceLength_of segs)
      (availableScaleSpace_of segs S) 0 segs.
Proof. unfold calculateDestinationSegments. apply fold_dest_step. Qed.

Lemma calculateDestinationSegments_lengths (segs : list Segment.t) (S : Q) :
  map DestSegment.length (calculateDestinationSegments segs S)
  = map (destLength_of (scaleFixed_of segs S) (totalScaleSourceLength_of segs)
           (availableScaleSpace_of segs S)) segs.
Proof. rewrite calculateDestinationSegments_layout. apply layout_lengths. Qed.

Lemma calculateDestinationSegments_length (segs : list Segment.t) (S : Q) :
  List.length (calculateDestinationSegments segs S) = List.length segs.
Proof.
  rewrite <- (length_map DestSegment.length),
    calculateDestinationSegments_lengths.
  apply length_map.
Qed.

Lemma calculateDestinationSegments_lookup
    (segs : list Segment.t) (S : Q) (i : nat) (s : Segment.t) (d : DestSegment.t) :
  segs !! i = Some s ->
  calculateDestinationSegments segs S !! i = Some d ->
  DestSegment.length d
  = destLength_of (scaleFixed_of segs S) (totalScaleSourceLength_of segs)
      (availableScaleSpace_of segs S) s.
Proof.
  intros Hs Hd.
  pose proof (f_equal (fun l => l !! i)
                (calculateDestinationSegments_lengths segs S)) as H.
  simpl in H. rewrite !list_lookup_fmap, Hs, Hd in H.
  simpl in H. congruence.
Qed.

Lemma scaleFixed_one (segs : list Segment.t) (S : Q) :
  totalFixed_of segs <= S -> scaleFixed_of segs S = 1.
Proof.
  intros H. unfold scaleFixed_of.
  apply Qlt_bool_false in H. rewrite H. reflexivity.
Qed.

Lemma Qmult_1_r_eq (x : Q) : x * 1 = x.
Proof.
  destruct x as [n d]. unfold Qmult. simpl.
  rewrite Z.mul_1_r, Pos.mul_1_r. reflexivity.
Qed.

Lemma sum_dest_lengths_Qsum (ds : list DestSegment.t) :
  sum_dest_lengths ds = Qsum (map DestSegment.length ds).
Proof.
  unfold sum_dest_lengths, Qsum. generalize 0.
  induction ds as [|d ds IH]; intros a; simpl; [reflexivity|].
  apply IH.
Qed.

Lemma fixed_preserved_when_room (segs : list Segment.t) (S : Q) :
  totalFixed_of segs <= S ->
  fixed_preserved segs (calculateDestinationSegments segs S).
Proof.
  intros Hroom i s d Hs Hd Hfix.
  rewrite (calculateDestinationSegments_lookup _ _ _ _ _ Hs Hd).
  unfold destLength_of. rewrite Hfix, (scaleFixed_one _ _ Hroom).
  apply Qmult_1_r_eq.
Qed.

Lemma sum_dest_when_room (segs : list Segment.t) (S : Q) :
  totalFixed_of segs <= S ->
  sum_dest_lengths (calculateDestinationSegments segs S)
  == totalFixed_of segs
     + (if Qeq_bool (totalScaleSourceLength_of segs) 0 then 0
        else S - totalFixed_of segs).
Proof.
  intros Hroom.
  rewrite sum_dest_lengths_Qsum, calculateDestinationSegments_lengths,
    Qsum_destLength, (scaleFixed_one _ _ Hroom).
  fold (totalFixed_of segs). fold (totalScaleSourceLength_of segs).
  unfold scale_factor.
  destruct (Qeq_bool (totalScaleSourceLength_of segs) 0) eqn:E.
  - ring.
  - apply Qeq_bool_false in E.
    assert (availableScaleSpace_of segs S == S - totalFixed_of segs) as ->.
    { unfold availableScaleSpace_of. apply Q.max_r. lra. }
    field. exact E.
Qed.

(** C1, amended: when [S >= totalFixed], every fixed segment keeps its
    source length exactly, whatever the scalable segments are; the
    destination lengths sum to [S] (in exact arithmetic) provided the
    scalable segments have a nonzero total source length or there is no
    space left to distribute ([S == totalFixed]); and when the scalable
    segments have no length the destination lengths sum to [totalFixed],
    which is not [S] as soon as [S > totalFixed]. *)
Theorem calculateDestinationSegments_fills
    (segs : list Segment.t) (S : Q) :
  totalFixed_of segs <= S ->
  fixed_preserved segs (calculateDestinationSegments segs S)
  /\ ((~ totalScaleSourceLength_of segs == 0 \/ S == totalFixed_of segs) ->
      fills_target segs S)
  /\ (totalScaleSourceLength_of segs == 0 ->
      sum_dest_lengths (calculateDestinationSegments segs S)
      == totalFixed_of segs).
Proof.
  intros Hroom.
  pose proof (fixed_preserved_when_room _ _ Hroom) as Hfixed.
  pose proof (sum_dest_when_room _ _ Hroom) as Hsum.
  split; [exact Hfixed|]. split.
  - intros Hscal. split; [|exact Hfixed]. rewrite Hsum.
    destruct (Qeq_bool (totalScaleSourceLength_of segs) 0) eqn:E.
    + apply Qeq_bool_iff in E. destruct Hscal as [H|H]; [contradiction|lra].
    + ring.
  - intros Hnone. rewrite Hsum.
    apply Qeq_bool_iff in Hnone. rewrite Hnone. ring.
Qed.

Lemma calculateDestinationSegments_fills_witness :
  totalFixed_of three_slice <= 500 /\
  fills_target three_slice 500 /\
  fixed_preserved unsliced (calculateDestinationSegments unsliced 200) /\
  sum_dest_lengths (calculateDestinationSegments unsliced 200)
  == totalFixed_of unsliced.
Proof.
  assert (totalFixed_of three_slice <= 500) as Hroom
    by (vm_compute; discriminate).
  assert (~ totalScaleSourceLength_of three_slice == 0
          \/ 500 == totalFixed_of three_slice) as Hscal
    by (left; intros H; vm_compute in H; discriminate).
  assert (totalFixed_of unsliced <= 200) as Hroom'
    by (vm_compute; discriminate).
  assert (totalScaleSourceLength_of unsliced == 0) as Hnone
    by reflexivity.
  split; [exact Hroom|].
  split;
    [exact (proj1 (proj2 (calculateDestinationSegments_fills
                            three_slice 500 Hroom)) Hscal)|].
  split;
    [exact (proj1 (calculateDestinationSegments_fills unsliced 200 Hroom'))|].
  exact (proj2 (proj2 (calculateDestinationSegments_fills
                         unsliced 200 Hroom')) Hnone).
Defined.

(** C1 as stated fails: without an axis the whole dimension is one fixed
    segment, which keeps its 100 pixels in a target of 200. *)
Lemma calculateDestinationSegments_fixed_only_short :
  totalFixed_of unsliced <= 200 /\ ~ fills_target unsliced 200.
Proof.
  split; [vm_compute; discriminate|].
  intros [Hsum _]. vm_compute in Hsum. discriminate.
Qed.

(** C4: without scalable segments and with [S < totalFixed], every
    destination length is the source length times [S / totalFixed]. *)
Theorem calculateDestinationSegments_uniform_shrink
    (segs : list Segment.t) (S : Q) :
  Forall (fun s => Segment.isFixed s = true) segs ->
  S < totalFixed_of segs ->
  uniformly_shrunk segs S.
Proof.
  intros Hall Hlt. split; [apply calculateDestinationSegments_length|].
  intros i s d Hs Hd.
  rewrite (calculateDestinationSegments_lookup _ _ _ _ _ Hs Hd).
  assert (Segment.isFixed s = true) as Hfix.
  { rewrite Forall_forall in Hall. apply Hall.
    apply list_elem_of_lookup. eauto. }
  unfold destLength_of, scaleFixed_of. rewrite Hfix.
  apply Qlt_bool_iff in Hlt. rewrite Hlt. reflexivity.
Qed.

Lemma calculateDestinationSegments_uniform_shrink_witness :
  Forall (fun s => Segment.isFixed s = true) two_fixed /\
  100 < totalFixed_of two_fixed /\
  uniformly_shrunk two_fixed 100.
Proof.
  assert (Forall (fun s => Segment.isFixed s = true) two_fixed) as Hall
    by (repeat constructor).
  assert (100 < totalFixed_of two_fixed) as Hlt by (vm_compute; reflexivity).
  split; [exact Hall|]. split; [exact Hlt|].
  exact (calculateDestinationSegments_uniform_shrink two_fixed 100 Hall Hlt).
Defined.

Lemma no_fixed_filter (segs : list Segment.t) :
  Forall (fun s => Segment.isFixed s = false) segs ->
  List.filter (fun s => Segment.isFixed s) segs = [].
Proof.
  induction 1 as [|s segs Hs Hall IH]; simpl; [reflexivity|].
  rewrite Hs. exact IH.
Qed.

(** C5, amended: with only scalable segments, when the total source length
    is not 0 every destination length is the value of the source's own
    expression [(length / totalScaleSourceLength) * max(0, S - 0)]; hence,
    in exact arithmetic (the source rounds the two products and the two
    quotients, so there the ratios agree up to that rounding), for [S > 0]
    the destination lengths are in the ratio of the source lengths; and for
    [S <= 0] or a total source length of 0 every destination length is 0,
    so that the quotient of two of them is not defined. *)
Theorem calculateDestinationSegments_proportional
    (segs : list Segment.t) (S : Q) :
  Forall (fun s => Segment.isFixed s = false) segs ->
  (~ totalScaleSourceLength_of segs == 0 ->
   forall (i : nat) (s : Segment.t) (d : DestSegment.t),
     segs !! i = Some s ->
     calculateDestinationSegments segs S !! i = Some d ->
     DestSegment.length d
     = Segment.length s / totalScaleSourceLength_of segs * Qmax 0 (S - 0))
  /\ (0 < S -> ~ totalScaleSourceLength_of segs == 0 ->
      proportional segs (calculateDestinationSegments segs S))
  /\ (S <= 0 \/ totalScaleSourceLength_of segs == 0 ->
      Forall (fun d => DestSegment.length d == 0)
        (calculateDestinationSegments segs S)).
Proof.
  intros Hall.
  assert (forall s, s ∈ segs -> Segment.isFixed s = false) as Hscal
    by (apply Forall_forall, Hall).
  assert (availableScaleSpace_of segs S = Qmax 0 (S - 0)) as Hav.
  { unfold availableScaleSpace_of, totalFixed_of.
    rewrite (no_fixed_filter _ Hall). reflexivity. }
  assert (forall (i : nat) (s : Segment.t) (d : DestSegment.t),
             segs !! i = Some s ->
             calculateDestinationSegments segs S !! i = Some d ->
             DestSegment.length d
             = if Qeq_bool (totalScaleSourceLength_of segs) 0 then 0
               else Segment.length s / totalScaleSourceLength_of segs
                    * Qmax 0 (S - 0)) as Hlen.
  { intros i s d Hs Hd.
    rewrite (calculateDestinationSegments_lookup _ _ _ _ _ Hs Hd).
    unfold destLength_of.
    rewrite (Hscal s) by (apply list_elem_of_lookup; eauto).
    rewrite Hav. reflexivity. }
  split; [|split].
  - intros Htsl i s d Hs Hd. rewrite (Hlen i s d Hs Hd).
    apply Qeq_bool_false in Htsl. rewrite Htsl. reflexivity.
  - intros HS Htsl i j si sj di dj Hsi Hsj Hdi Hdj Hni Hnj.
    rewrite (Hlen i si di Hsi Hdi), (Hlen j sj dj Hsj Hdj).
    apply Qeq_bool_false in Htsl as E. rewrite E.
    assert (Qmax 0 (S - 0) == S) as -> by (rewrite Q.max_r; lra).
    field. repeat split; try assumption. lra.
  - intros Hzero. apply Forall_lookup. intros i d Hd.
    destruct (segs !! i) as [s|] eqn:Hs.
    + rewrite (Hlen i s d Hs Hd).
      destruct (Qeq_bool (totalScaleSourceLength_of segs) 0) eqn:E;
        [reflexivity|].
      apply Qeq_bool_false in E.
      destruct Hzero as [HS|Htsl]; [|contradiction].
      assert (Qmax 0 (S - 0) == 0) as -> by (rewrite Q.max_l; lra).
      ring.
    + apply lookup_ge_None in Hs. apply lookup_lt_Some in Hd.
      rewrite calculateDestinationSegments_length in Hd. lia.
Qed.

Lemma calculateDestinationSegments_proportional_witness :
  Forall (fun s => Segment.isFixed s = false) two_scalable /\
  proportional two_scalable (calculateDestinationSegments two_scalable 200) /\
  Forall (fun d => DestSegment.length d == 0)
    (calculateDestinationSegments two_scalable 0).
Proof.
  assert (Forall (fun s => Segment.isFixed s = false) two_scalable) as Hall
    by (repeat constructor).
  assert (0 < 200) as HS by reflexivity.
  assert (~ totalScaleSourceLength_of two_scalable == 0) as Htsl
    by (intros H; vm_compute in H; discriminate).
  assert (0 <= 0 \/ totalScaleSourceLength_of two_scalable == 0) as Hzero
    by (left; discriminate).
  split; [exact Hall|].
  split;
    [exact (proj1 (proj2 (calculateDestinationSegments_proportional
                            two_scalable 200 Hall)) HS Htsl)|].
  exact (proj2 (proj2 (calculateDestinationSegments_proportional
                         two_scalable 0 Hall)) Hzero).
Defined.

(** C5 as stated fails: at target size 0 every scalable segment gets
    length 0, and the quotient of two destination lengths is no longer
    the quotient of the source lengths. *)
Lemma calculateDestinationSegments_not_proportional_at_zero :
  Forall (fun s => Segment.isFixed s = false) two_scalable /\
  ~ proportional two_scalable (calculateDestinationSegments two_scalable 0).
Proof.
  split; [repeat constructor|].
  intros H.
  specialize (H 0%nat 1%nat _ _ _ _ eq_refl eq_refl eq_refl eq_refl).
  match type of H with
  | ?A -> ?B -> _ =>
      assert A as Ha by (intros E; vm_compute in E; discriminate);
      assert B as Hb by (intros E; vm_compute in E; discriminate);
      specialize (H Ha Hb)
  end.
  vm_compute in H. discriminate.
Qed.

End LayoutTheorems.

(** ** The worked scenarios of the specification *)

Section Scenarios.
Local Open Scope Q_scope.

(** One x axis at 50 on a width of 200, [colScaling = [false; true]]:
    two segments of length 100, the first fixed; at target width 100 the
    fixed one keeps 100 and the scalable one gets 0. *)
Example scenario_one_axis :
  Forall2 Qeq
    (map Segment.length (calculateSegments [ax "x1" 50] 200 [false; true]))
    [100; 100]
  /\ map Segment.isFixed (calculateSegments [ax "x1" 50] 200 [false; true])
     = [true; false]
  /\ Forall2 Qeq
       (map DestSegment.length
          (calculateDestinationSegments
             (calculateSegments [ax "x1" 50] 200 [false; true]) 100))
       [100; 0]
  /\ Forall2 Qeq
       (map DestSegment.start
          (calculateDestinationSegments
             (calculateSegments [ax "x1" 50] 200 [false; true]) 100))
       [0; 100].
Proof. repeat split; repeat constructor. Qed.

(** Two x axes at 25 and 75 on a width of 400 with the default flags, at
    target width 200: the outer segments keep 100 each, the middle one
    gets 0. *)
Example scenario_two_axes :
  Forall2 Qeq (map Segment.start three_slice) [0; 100; 300]
  /\ Forall2 Qeq (map Segment.length three_slice) [100; 200; 100]
  /\ totalFixed_of three_slice == 200
  /\ Forall2 Qeq
       (map DestSegment.length (calculateDestinationSegments three_slice 200))
       [100; 0; 100]
  /\ sum_dest_lengths (calculateDestinationSegments three_slice 200) == 200.
Proof. repeat split; repeat constructor. Qed.

(** Coincident axes give one segment less, and the indices of the emitted
    segments are those of their boundaries. *)
Example scenario_coincident_axes :
  map Segment.index
    (calculateSegments [ax "p" 50; ax "q" 50] 200 [false; true; false])
  = [0; 2]%nat.
Proof. reflexivity. Qed.

End Scenarios.

(** ** Totality of the partitioner and the layout, and when the layout is finite *)

Section Totality.
Local Open Scope Q_scope.





Lemma finite_div_nonzero (x y : Q) :
  ~ y == 0 -> finite_div x y = Some (x / y).
Proof.
  intros H. unfold finite_div.
  apply Qeq_bool_false in H. rewrite H. reflexivity.
Qed.













End Totality.

(** ** The dense tile map of the exported document *)

Section Codec.

Lemma getEffectiveTileMode_key (tiles : TileMap) (row col : nat) :
  getEffectiveTileMode tiles row col = mode_of_key tiles (tile_key row col).
Proof. reflexivity. Qed.

Lemma dense_row_resolved (tiles : TileMap) (r : nat) (cs : list nat) (acc : TileMap) :
  resolved tiles acc ->
  resolved tiles
    (fold_left
       (fun acc c =>
          <[ tile_key r c := {| mode := getEffectiveTileMode tiles r c |} ]> acc)
       cs acc).
Proof.
  revert acc. induction cs as [|c cs IH]; intros acc Hacc; simpl; [exact Hacc|].
  apply IH. intros key cfg Hlook.
  destruct (decide (tile_key r c = key)) as [<-|Hne].
  - rewrite lookup_insert_eq in Hlook. injection Hlook as <-. reflexivity.
  - rewrite lookup_insert_ne in Hlook by exact Hne. apply Hacc, Hlook.
Qed.

Lemma dense_row_keeps (tiles : TileMap) (r : nat) (cs : list nat) (acc : TileMap)
    (key : string) :
  is_Some (acc !! key) ->
  is_Some
    (fold_left
       (fun acc c =>
          <[ tile_key r c := {| mode := getEffectiveTileMode tiles r c |} ]> acc)
       cs acc !! key).
Proof.
  revert acc. induction cs as [|c cs IH]; intros acc Hacc; simpl; [exact Hacc|].
  apply IH. rewrite lookup_insert_is_Some'. right. exact Hacc.
Qed.

Lemma dense_row_covers (tiles : TileMap) (r : nat) (cs : list nat) (acc : TileMap)
    (c : nat) :
  c ∈ cs ->
  is_Some
    (fold_left
       (fun acc c =>
          <[ tile_key r c := {| mode := getEffectiveTileMode tiles r c |} ]> acc)
       cs acc !! tile_key r c).
Proof.
  revert acc. induction cs as [|c' cs IH]; intros acc Hin; simpl.
  - inversion Hin.
  - apply elem_of_cons in Hin as [->|Hin].
    + apply dense_row_keeps. rewrite lookup_insert_eq. eauto.
    + apply IH, Hin.
Qed.

Lemma dense_rows_resolved (tiles : TileMap) (numCols : nat) (rs : list nat)
    (acc : TileMap) :
  resolved tiles acc ->
  resolved tiles (fold_left (dense_row tiles numCols) rs acc).
Proof.
  revert acc. induction rs as [|r rs IH]; intros acc Hacc; simpl; [exact Hacc|].
  apply IH, dense_row_resolved, Hacc.
Qed.

Lemma dense_rows_keep (tiles : TileMap) (numCols : nat) (rs : list nat)
    (acc : TileMap) (key : string) :
  is_Some (acc !! key) ->
  is_Some (fold_left (dense_row tiles numCols) rs acc !! key).
Proof.
  revert acc. induction rs as [|r rs IH]; intros acc Hacc; simpl; [exact Hacc|].
  apply IH, dense_row_keeps, Hacc.
Qed.

Lemma dense_rows_cover (tiles : TileMap) (numCols : nat) (rs : list nat)
    (acc : TileMap) (r c : nat) :
  r ∈ rs -> c < numCols ->
  is_Some (fold_left (dense_row tiles numCols) rs acc !! tile_key r c).
Proof.
  revert acc. induction rs as [|r' rs IH]; intros acc Hin Hc; simpl.
  - inversion Hin.
  - apply elem_of_cons in Hin as [->|Hin].
    + apply dense_rows_keep, dense_row_covers.
      apply elem_of_seq. lia.
    + apply IH; assumption.
Qed.

(** The exported map is dense and explicit: every cell of the grid has an
    entry, which holds the cell's effective mode. *)
Lemma dense_tiles_lookup (tiles : TileMap) (numRows numCols r c : nat) :
  r < numRows -> c < numCols ->
  dense_tiles tiles numRows numCols !! tile_key r c
  = Some {| mode := getEffectiveTileMode tiles r c |}.
Proof.
  intros Hr Hc. unfold dense_tiles.
  destruct (dense_rows_cover tiles numCols (seq 0 numRows) ∅ r c) as [cfg Hcfg];
    [apply elem_of_seq; lia|exact Hc|].
  rewrite Hcfg. f_equal.
  assert (resolved tiles (fold_left (dense_row tiles numCols) (seq 0 numRows) ∅))
    as Hres.
  { apply dense_rows_resolved. intros key cfg' Hlook.
    rewrite lookup_empty in Hlook. discriminate. }
  specialize (Hres _ _ Hcfg). destruct cfg as [m]. simpl in Hres.
  rewrite getEffectiveTileMode_key, Hres. reflexivity.
Qed.

(** C3: exporting the document and loading it again gives, at every cell
    of the grid, the effective mode the cell had. *)
Theorem export_import_effective_mode (st st' : AppState.t) (r c : nat) :
  r < List.length (AppState.yAxes st) + 1 ->
  c < List.length (AppState.xAxes st) + 1 ->
  getEffectiveTileMode (AppState.tiles (export_import st st')) r c
  = getEffectiveTileMode (AppState.tiles st) r c.
Proof.
  intros Hr Hc. unfold export_import, handleLoadJson, generateJSON. simpl.
  unfold getEffectiveTileMode at 1.
  rewrite dense_tiles_lookup by (rewrite sort_axes_length; assumption).
  reflexivity.
Qed.

Lemma export_import_effective_mode_witness :
  (0 < List.length (AppState.yAxes one_hidden_tile) + 1)%nat /\
  (1 < List.length (AppState.xAxes one_hidden_tile) + 1)%nat /\
  getEffectiveTileMode
    (AppState.tiles (export_import one_hidden_tile initial_state)) 0 1
  = Hidden.
Proof.
  assert (0 < List.length (AppState.yAxes one_hidden_tile) + 1)%nat as Hr
    by (simpl; lia).
  assert (1 < List.length (AppState.xAxes one_hidden_tile) + 1)%nat as Hc
    by (simpl; lia).
  split; [exact Hr|]. split; [exact Hc|].
  rewrite (export_import_effective_mode one_hidden_tile initial_state 0 1 Hr Hc).
  reflexivity.
Defined.

End Codec.

(** ** The tile mode resolver *)

Section Resolver.

(** C8: [getEffectiveTileMode] returns the stored mode when the key of the
    cell is in the map, and [Stretch], which is not [Fixed], when it is
    not. *)
Theorem getEffectiveTileMode_stored_or_stretch
    (tiles : TileMap) (row col : nat) :
  (forall cfg : TileConfig,
      tiles !! tile_key row col = Some cfg ->
      getEffectiveTileMode tiles row col = mode cfg)
  /\ (tiles !! tile_key row col = None ->
      getEffectiveTileMode tiles row col = Stretch
      /\ getEffectiveTileMode tiles row col <> Fixed).
Proof.
  unfold getEffectiveTileMode. split.
  - intros cfg ->. reflexivity.
  - intros ->. split; [reflexivity|discriminate].
Qed.

Lemma getEffectiveTileMode_stored_or_stretch_witness :
  tile_key 0 1 = "0-1"
  /\ getEffectiveTileMode (AppState.tiles one_hidden_tile) 0 1 = Hidden
  /\ getEffectiveTileMode (AppState.tiles one_hidden_tile) 1 1 = Stretch.
Proof.
  split; [reflexivity|]. split.
  - apply (proj1 (getEffectiveTileMode_stored_or_stretch
                    (AppState.tiles one_hidden_tile) 0 1)
             {| mode := Hidden |}).
    reflexivity.
  - apply (proj2 (getEffectiveTileMode_stored_or_stretch
                    (AppState.tiles one_hidden_tile) 1 1)).
    reflexivity.
Defined.

End Resolver.

(** ** The default scaling pattern and the loading of legacy documents *)

Section DefaultScaling.

Lemma imap_replicate_seq {A : Type} (f : nat -> A) (n k : nat) :
  imap (fun i _ => f (k + i)) (replicate n tt) = map f (seq k n).
Proof.
  revert k. induction n as [|n IH]; intros k; simpl; [reflexivity|].
  rewrite Nat.add_0_r. f_equal.
  rewrite <- IH. apply imap_ext. intros i x _. simpl. f_equal. lia.
Qed.

Lemma generateDefaultScaling_seq (n : nat) :
  generateDefaultScaling n = map (fun i => negb (i mod 2 =? 0)) (seq 0 n).
Proof.
  unfold generateDefaultScaling.
  apply (imap_replicate_seq (fun i => negb (i mod 2 =? 0)) n 0).
Qed.

Lemma generateDefaultScaling_length (n : nat) :
  List.length (generateDefaultScaling n) = n.
Proof. rewrite generateDefaultScaling_seq, length_map. apply length_seq. Qed.

Lemma generateDefaultScaling_lookup (n i : nat) :
  i < n -> generateDefaultScaling n !! i = Some (negb (i mod 2 =? 0)).
Proof.
  intros Hi. rewrite generateDefaultScaling_seq, list_lookup_fmap.
  rewrite lookup_seq_lt by exact Hi. reflexivity.
Qed.

End DefaultScaling.

Section LegacyDocuments.

(** C9: a document without [rowScaling] (or [colScaling]) is loaded with
    [generateDefaultScaling (axisCount + 1)] in its place, where
    [generateDefaultScaling n] is the list of [i % 2 !== 0] for [i] from 0
    below [n]; in particular [[false; true; false]] for 3 and [[false]]
    for 1. *)
Theorem handleLoadJson_default_scaling (config : NSliceConfig.t) (st : AppState.t) :
  (NSliceConfig.rowScaling config = None ->
   AppState.rowScaling (handleLoadJson config st)
   = generateDefaultScaling
       (List.length (default [] (NSliceConfig.yAxes config)) + 1))
  /\ (NSliceConfig.colScaling config = None ->
      AppState.colScaling (handleLoadJson config st)
      = generateDefaultScaling
          (List.length (default [] (NSliceConfig.xAxes config)) + 1))
  /\ (forall n : nat,
        generateDefaultScaling n
        = map (fun i => negb (i mod 2 =? 0)) (seq 0 n))
  /\ generateDefaultScaling 3 = [false; true; false]
  /\ generateDefaultScaling 1 = [false].
Proof.
  split; [|split; [|split; [|split]]].
  - intros Hnone. unfold handleLoadJson. simpl. rewrite Hnone.
    destruct (NSliceConfig.yAxes config); reflexivity.
  - intros Hnone. unfold handleLoadJson. simpl. rewrite Hnone.
    destruct (NSliceConfig.xAxes config); reflexivity.
  - apply generateDefaultScaling_seq.
  - reflexivity.
  - reflexivity.
Qed.

Lemma handleLoadJson_default_scaling_witness :
  NSliceConfig.rowScaling legacy_document = None
  /\ NSliceConfig.colScaling legacy_document = None
  /\ AppState.rowScaling (handleLoadJson legacy_document initial_state)
     = [false; true]
  /\ AppState.colScaling (handleLoadJson legacy_document initial_state)
     = [false; true; false].
Proof.
  destruct (handleLoadJson_default_scaling legacy_document initial_state)
    as (Hrow & Hcol & _).
  split; [reflexivity|]. split; [reflexivity|]. split.
  - rewrite (Hrow eq_refl). reflexivity.
  - rewrite (Hcol eq_refl). reflexivity.
Defined.

End LegacyDocuments.

(** ** Axis values on numeric entry and on load *)

Section AxisValues.
Local Open Scope Q_scope.

Lemma clamp_percent_range (val : ParsedNumber) :
  0 <= clamp_percent val /\ clamp_percent val <= 100.
Proof.
  destruct val as [| | |q]; simpl; try (split; discriminate).
  split.
  - apply Q.min_glb; [discriminate|apply Q.le_max_l].
  - apply Q.le_min_l.
Qed.

Lemma clamp_percent_in_range (q : Q) :
  0 <= q -> q <= 100 -> clamp_percent (Finite q) == q.
Proof.
  intros H0 H100. simpl.
  rewrite Q.max_r by exact H0. apply Q.min_r, H100.
Qed.

Lemma set_axis_value_percent (i : string) (clamped : Q) (axes : list Axis) :
  0 <= clamped /\ clamped <= 100 ->
  Forall percent axes -> Forall percent (set_axis_value i clamped axes).
Proof.
  intros Hc Hall. unfold set_axis_value. apply List.Forall_map.
  eapply Forall_impl; [exact Hall|]. intros a Ha.
  destruct (String.eqb (id a) i); [exact Hc|exact Ha].
Qed.

Lemma set_axis_value_sets (i : string) (clamped : Q) (axes : list Axis) :
  Forall (fun a => id a = i -> value a = clamped) (set_axis_value i clamped axes).
Proof.
  unfold set_axis_value. apply List.Forall_map, Forall_forall. intros a _.
  destruct (String.eqb (id a) i) eqn:E; simpl.
  - reflexivity.
  - intros Heq. apply String.eqb_neq in E. contradiction.
Qed.

(** C6, amended: numeric entry replaces the value of the named axis by the
    entered number clamped to [0,100] (an entry that is not a number
    changes nothing), so it keeps every axis value in [0,100]; loading a
    document stores the axes of the document as they are. *)
Theorem axis_values_entry_and_load
    (i : string) (type : AxisType) (val : ParsedNumber)
    (config : NSliceConfig.t) (st : AppState.t) :
  axes_in_range st ->
  axes_in_range (updateAxisValue i type val st)
  /\ (val <> NaN ->
      Forall (fun a => id a = i -> value a = clamp_percent val)
        (axes_of type (updateAxisValue i type val st)))
  /\ (0 <= clamp_percent val /\ clamp_percent val <= 100)
  /\ (forall q : Q, val = Finite q -> 0 <= q -> q <= 100 -> clamp_percent val == q)
  /\ List.length (axes_of type (updateAxisValue i type val st))
     = List.length (axes_of type st)
  /\ updateAxisValue i type NaN st = st
  /\ AppState.xAxes (handleLoadJson config st)
     = default [] (NSliceConfig.xAxes config)
  /\ AppState.yAxes (handleLoadJson config st)
     = default [] (NSliceConfig.yAxes config).
Proof.
  intros [Hx Hy].
  pose proof (clamp_percent_range val) as Hrange.
  repeat apply conj.
  - destruct val, type; simpl; try exact Hx;
      apply set_axis_value_percent; assumption.
  - destruct val, type; simpl; try exact Hy;
      apply set_axis_value_percent; assumption.
  - intros Hnan. destruct val, type; try contradiction; simpl;
      apply set_axis_value_sets.
  - apply Hrange.
  - apply Hrange.
  - intros q -> H0 H100. apply clamp_percent_in_range; assumption.
  - destruct val, type; simpl; try reflexivity;
      unfold set_axis_value; apply length_map.
  - reflexivity.
  - reflexivity.
  - reflexivity.
Qed.

Lemma axis_values_entry_and_load_witness :
  axes_in_range initial_state
  /\ axes_in_range (updateAxisValue "x1" AxisX (Finite 250) initial_state)
  /\ Forall (fun a => id a = "x1" -> value a = 100)
       (AppState.xAxes (updateAxisValue "x1" AxisX (Finite 250) initial_state)).
Proof.
  assert (axes_in_range initial_state) as Hinit
    by (split; repeat constructor; simpl; discriminate).
  destruct (axis_values_entry_and_load "x1" AxisX (Finite 250)
              legacy_document initial_state Hinit) as (Hrange & Hset & _).
  split; [exact Hinit|]. split; [exact Hrange|].
  apply Hset. discriminate.
Defined.

(** C6 as stated fails: loading a document whose axis stands at 150
    leaves the axis at 150. *)
Lemma handleLoadJson_keeps_out_of_range_value :
  axes_in_range initial_state
  /\ ~ axes_in_range (handleLoadJson out_of_range_document initial_state).
Proof.
  split; [split; repeat constructor; simpl; discriminate|].
  intros [Hx _]. inversion Hx as [|a l [_ H100] _]; subst.
  vm_compute in H100. apply H100. reflexivity.
Qed.

End AxisValues.

(** ** Adding and deleting an axis *)

Section AddDelete.

Lemma slice_0_minus1_snoc {A : Type} (flags : list A) (b : A) :
  slice_0_minus1 (flags ++ [b]) = flags.
Proof.
  unfold slice_0_minus1. rewrite length_app. simpl.
  replace (List.length flags + 1 - 1) with (List.length flags) by lia.
  apply take_app_length.
Qed.

Lemma slice_0_minus1_length {A : Type} (prev : list A) :
  List.length (slice_0_minus1 prev) = List.length prev - 1.
Proof. unfold slice_0_minus1. rewrite length_take. lia. Qed.

Lemma slice_0_minus1_lookup {A : Type} (prev : list A) (j : nat) :
  j < List.length (slice_0_minus1 prev) ->
  slice_0_minus1 prev !! j = prev !! j.
Proof.
  rewrite slice_0_minus1_length. intros Hj.
  unfold slice_0_minus1. apply lookup_take_lt. exact Hj.
Qed.

Lemma remove_axis_length (i : string) (axes : list Axis) :
  List.length (remove_axis i axes) + count_id i axes = List.length axes.
Proof.
  unfold remove_axis, count_id.
  induction axes as [|a axes IH]; simpl; [reflexivity|].
  destruct (String.eqb (id a) i); simpl; lia.
Qed.

Lemma handleAddAxis_sync (now : N) (type : AxisType) (st : AppState.t) :
  scaling_in_sync st -> scaling_in_sync (handleAddAxis now type st).
Proof.
  intros [Hc Hr]. destruct type; split; simpl; rewrite ?length_app; simpl; lia.
Qed.

Lemma handleDeleteAxis_sync (i : string) (type : AxisType) (st : AppState.t) :
  scaling_in_sync st -> count_id i (axes_of type st) = 1 ->
  scaling_in_sync (handleDeleteAxis i type st).
Proof.
  intros [Hc Hr] Hcount.
  pose proof (remove_axis_length i (axes_of type st)) as Hlen.
  destruct type; simpl in *; split; simpl;
    rewrite ?slice_0_minus1_length; lia.
Qed.

(** C10, amended: adding an axis appends one scaling flag, whose value is
    [newAxes.length % 2 !== 0], and keeps one flag per segment; deleting an
    axis removes the last scaling flag and leaves the flags before it as
    they were, whichever axis is deleted, and keeps one flag per segment
    when exactly one axis of the list carries the deleted identifier. *)
Theorem add_delete_axis_scaling
    (now : N) (i : string) (type : AxisType) (st : AppState.t) :
  scaling_of type (handleAddAxis now type st)
  = scaling_of type st
    ++ [negb (List.length (axes_of type (handleAddAxis now type st)) mod 2 =? 0)]
  /\ List.length (axes_of type (handleAddAxis now type st))
     = List.length (axes_of type st) + 1
  /\ scaling_of (other type) (handleAddAxis now type st)
     = scaling_of (other type) st
  /\ (scaling_in_sync st -> scaling_in_sync (handleAddAxis now type st))
  /\ (forall (flags : list bool) (b : bool),
        scaling_of type st = flags ++ [b] ->
        scaling_of type (handleDeleteAxis i type st) = flags)
  /\ (forall j : nat,
        j < List.length (scaling_of type (handleDeleteAxis i type st)) ->
        scaling_of type (handleDeleteAxis i type st) !! j
        = scaling_of type st !! j)
  /\ scaling_of (other type) (handleDeleteAxis i type st)
     = scaling_of (other type) st
  /\ (scaling_in_sync st -> count_id i (axes_of type st) = 1 ->
      scaling_in_sync (handleDeleteAxis i type st)).
Proof.
  split; [destruct type; reflexivity|].
  split; [destruct type; simpl; apply length_app|].
  split; [destruct type; reflexivity|].
  split; [apply handleAddAxis_sync|].
  split.
  { intros flags b Hflags. destruct type; simpl in *; rewrite Hflags;
      apply slice_0_minus1_snoc. }
  split.
  { intros j Hj. destruct type; simpl in *;
      apply slice_0_minus1_lookup; exact Hj. }
  split; [destruct type; reflexivity|].
  apply handleDeleteAxis_sync.
Qed.

Lemma add_delete_axis_scaling_witness :
  scaling_in_sync initial_state
  /\ count_id "x1" (axes_of AxisX initial_state) = 1
  /\ scaling_in_sync (handleAddAxis 1700000000000 AxisX initial_state)
  /\ scaling_in_sync (handleDeleteAxis "x1" AxisX initial_state)
  /\ scaling_of AxisX (handleDeleteAxis "x1" AxisX initial_state)
     = [false; true].
Proof.
  assert (scaling_in_sync initial_state) as Hsync by (split; reflexivity).
  assert (count_id "x1" (axes_of AxisX initial_state) = 1) as Hcount
    by reflexivity.
  destruct (add_delete_axis_scaling 1700000000000 "x1" AxisX initial_state)
    as (_ & _ & _ & Hadd & Hlast & _ & _ & Hdel).
  split; [exact Hsync|]. split; [exact Hcount|].
  split; [exact (Hadd Hsync)|]. split; [exact (Hdel Hsync Hcount)|].
  exact (Hlast [false; true] false eq_refl).
Defined.

(** C10 as stated fails: with two axes under one identifier, deleting by
    that identifier removes both axes and one flag. *)
Lemma handleDeleteAxis_twin_out_of_sync :
  scaling_in_sync twin_axes_state
  /\ ~ scaling_in_sync (handleDeleteAxis "a" AxisX twin_axes_state).
Proof.
  split; [split; reflexivity|].
  intros [Hc _]. vm_compute in Hc. discriminate.
Qed.

End AddDelete.

(** * Further properties of the code *)

(** ** The partition does not depend on the stored order of the axes *)

Section PartitionOrder.
Local Open Scope Q_scope.

Lemma Qle_bool_false (x y : Q) : Qle_bool x y = false <-> y < x.
Proof.
  split; intros H.
  - apply Qnot_le_lt. intros Hle. apply Qle_bool_iff in Hle. congruence.
  - destruct (Qle_bool x y) eqn:E; [|reflexivity].
    apply Qle_bool_iff in E. lra.
Qed.

Ltac order_cases :=
  repeat match goal with
    | |- context [Qle_bool ?a ?b] =>
        let E := fresh "E" in
        destruct (Qle_bool a b) eqn:E;
        [apply Qle_bool_iff in E | apply Qle_bool_false in E]
    end.

Lemma same_values_refl (l : list Axis) : same_values l l.
Proof. induction l; constructor; [reflexivity|assumption]. Qed.

Lemma same_values_trans (l1 l2 l3 : list Axis) :
  same_values l1 l2 -> same_values l2 l3 -> same_values l1 l3.
Proof.
  intros H12. revert l3.
  induction H12 as [|a b l1 l2 Hab H12 IH]; intros l3 H23;
    inversion H23; subst; constructor.
  - etransitivity; eassumption.
  - apply IH. assumption.
Qed.

Lemma insert_axis_same_values (a a' : Axis) (l l' : list Axis) :
  value a == value a' -> same_values l l' ->
  same_values (insert_axis a l) (insert_axis a' l').
Proof.
  intros Ha Hl. induction Hl as [|b b' l l' Hb Hl IH]; simpl.
  - constructor; [exact Ha|constructor].
  - rewrite <- Ha, <- Hb.
    destruct (Qle_bool (value a) (value b)).
    + constructor; [exact Ha|]. constructor; assumption.
    + constructor; assumption.
Qed.

Lemma insert_axis_comm (x y : Axis) (l : list Axis) :
  same_values (insert_axis x (insert_axis y l))
    (insert_axis y (insert_axis x l)).
Proof.
  induction l as [|b l IH]; simpl.
  - order_cases; simpl; order_cases;
      repeat (constructor; try lra); try lra.
  - order_cases; simpl; order_cases; simpl; order_cases;
      try lra;
      repeat (first [ exact IH | apply same_values_refl
                    | constructor; [lra|] ]).
Qed.

Lemma sort_axes_same_values (axes axes' : list Axis) :
  Permutation axes axes' -> same_values (sort_axes axes) (sort_axes axes').
Proof.
  induction 1 as [|a l l' _ IH|a b l|l1 l2 l3 _ IH12 _ IH23]; simpl.
  - constructor.
  - apply insert_axis_same_values; [reflexivity|exact IH].
  - apply insert_axis_comm.
  - eapply same_values_trans; eassumption.
Qed.

Lemma walk_segment_eq (scalingArray : list bool) (i : nat) (c c' : Q)
    (bs bs' : list Q) :
  c == c' -> Forall2 Qeq bs bs' ->
  Forall2 segment_eq (walk scalingArray i c bs) (walk scalingArray i c' bs').
Proof.
  intros Hc Hbs. revert i c c' Hc.
  induction Hbs as [|b b' bs bs' Hb Hbs IH]; intros i c c' Hc; simpl.
  - constructor.
  - assert (Qlt_bool 0 (b - c) = Qlt_bool 0 (b' - c')) as ->.
    { unfold Qlt_bool. rewrite Hb, Hc. reflexivity. }
    destruct (Qlt_bool 0 (b' - c')); simpl.
    + constructor; [|apply IH; exact Hb].
      unfold segment_eq. simpl. repeat split; lra.
    + apply IH. exact Hb.
Qed.

Lemma boundaries_same_values (l l' : list Axis) (T : Q) :
  same_values l l' -> Forall2 Qeq (boundaries_of l T) (boundaries_of l' T).
Proof.
  intros H. unfold boundaries_of. apply Forall2_app.
  - induction H as [|a b l l' Hab H IH]; simpl; constructor; [|exact IH].
    rewrite Hab. reflexivity.
  - constructor; [reflexivity|constructor].
Qed.

(** X1: the axes are stored in any order: permuting the list given to
    [calculateSegments] gives the same segments. *)
Theorem calculateSegments_permutation
    (axes axes' : list Axis) (T : Q) (scalingArray : list bool) :
  Permutation axes axes' ->
  Forall2 segment_eq
    (calculateSegments axes T scalingArray)
    (calculateSegments axes' T scalingArray).
Proof.
  intros Hperm. rewrite !calculateSegments_walk.
  apply walk_segment_eq; [reflexivity|].
  apply boundaries_same_values, sort_axes_same_values, Hperm.
Qed.

Lemma calculateSegments_permutation_witness :
  Permutation [ax "b" 75; ax "a" 25] [ax "a" 25; ax "b" 75]
  /\ Forall2 segment_eq three_slice
       (calculateSegments [ax "a" 25; ax "b" 75] 400 [false; true; false]).
Proof.
  assert (Permutation [ax "b" 75; ax "a" 25] [ax "a" 25; ax "b" 75]) as Hperm
    by apply perm_swap.
  split; [exact Hperm|].
  exact (calculateSegments_permutation _ _ 400 [false; true; false] Hperm).
Defined.

End PartitionOrder.

(** ** Which gaps between boundaries become segments: the statements *)

Section GapTheorems.
Local Open Scope Q_scope.

(** X2: the segments of [calculateSegments] are gaps between consecutive
    boundaries (0 before the first), each under the index of the boundary
    that closes it; they come in strictly increasing index; and every gap
    of positive length is among them. *)
Theorem calculateSegments_gaps
    (axes : list Axis) (T : Q) (scalingArray : list bool) :
  Forall (is_gap (boundaries_of (sort_axes axes) T))
    (calculateSegments axes T scalingArray)
  /\ StronglySorted lt
       (map Segment.index (calculateSegments axes T scalingArray))
  /\ forall (j : nat) (lo hi : Q),
       (0 :: boundaries_of (sort_axes axes) T) !! j = Some lo ->
       boundaries_of (sort_axes axes) T !! j = Some hi ->
       lo < hi ->
       exists s : Segment.t,
         s ∈ calculateSegments axes T scalingArray /\ Segment.index s = j.
Proof.
  rewrite calculateSegments_walk. split; [|split].
  - apply walk_gap_sound; reflexivity.
  - apply walk_index_sorted.
  - intros j lo hi Hlo Hhi Hlt.
    apply (walk_gap_complete scalingArray
             (boundaries_of (sort_axes axes) T)
             (boundaries_of (sort_axes axes) T) 0%nat 0 j lo hi);
      try assumption; try reflexivity. lia.
Qed.

Lemma calculateSegments_gaps_witness :
  exists s : Segment.t,
    s ∈ calculateSegments [ax "p" 50; ax "q" 50] 200 [false; true; false]
    /\ Segment.index s = 2%nat.
Proof.
  destruct (calculateSegments_gaps [ax "p" 50; ax "q" 50] 200
              [false; true; false]) as (_ & _ & Hall).
  apply (Hall 2%nat (50 / 100 * 200) 200); reflexivity.
Defined.

Lemma insert_axis_strictly_ascending (c : Q) (a : Axis) (l : list Axis) :
  c < value a -> Forall (fun b => ~ value a == value b) l ->
  strictly_ascending c (map value l) ->
  strictly_ascending c (map value (insert_axis a l)).
Proof.
  revert c. induction l as [|b l IH]; intros c Hc Hne Hasc; simpl.
  - split; [exact Hc|exact I].
  - inversion Hne as [|? ? Hab Hne']; subst. destruct Hasc as [Hb Hr].
    destruct (Qle_bool (value a) (value b)) eqn:E; simpl.
    + apply Qle_bool_iff in E. repeat split; try assumption. lra.
    + apply Qle_bool_false in E. split; [exact Hb|].
      apply IH; assumption.
Qed.

Lemma sort_axes_strictly_ascending (c : Q) (axes : list Axis) :
  Forall (fun a => c < value a) axes -> distinct_values axes ->
  strictly_ascending c (map value (sort_axes axes)).
Proof.
  induction 1 as [|a axes Ha Hall IH]; simpl; [tauto|].
  intros [Hne Hdist]. apply insert_axis_strictly_ascending.
  - exact Ha.
  - eapply Permutation_Forall; [|exact Hne]. symmetry. apply sort_axes_perm.
  - apply IH, Hdist.
Qed.

Lemma scale_lt (v w T : Q) : 0 < T -> v < w -> v / 100 * T < w / 100 * T.
Proof.
  intros HT Hvw. apply Qmult_lt_compat_r; [exact HT|].
  unfold Qdiv. apply Qmult_lt_compat_r; [reflexivity|exact Hvw].
Qed.

Lemma strictly_ascending_scale (c T : Q) (vs : list Q) :
  0 < T -> strictly_ascending c vs ->
  strictly_ascending (c / 100 * T) (map (fun v => v / 100 * T) vs).
Proof.
  intros HT. revert c.
  induction vs as [|v vs IH]; intros c; simpl; [tauto|].
  intros [Hcv Hr]. split; [apply scale_lt; assumption|]. apply IH, Hr.
Qed.

Lemma strictly_ascending_snoc (c t : Q) (bs : list Q) :
  strictly_ascending c bs -> c < t -> Forall (fun b => b < t) bs ->
  strictly_ascending c (bs ++ [t]).
Proof.
  revert c. induction bs as [|b bs IH]; intros c Hasc Hc Hall; simpl.
  - split; [exact Hc|exact I].
  - destruct Hasc as [Hb Hr]. inversion Hall as [|? ? Hbt Hall']; subst.
    split; [exact Hb|]. apply IH; assumption.
Qed.

Lemma strictly_ascending_from_eq (c c' : Q) (bs : list Q) :
  c == c' -> strictly_ascending c bs -> strictly_ascending c' bs.
Proof.
  destruct bs as [|b bs]; simpl; [tauto|].
  intros Hc [Hb Hr]. split; [lra|exact Hr].
Qed.

(** In exact arithmetic, axes at pairwise different values strictly inside
    the dimension give strictly increasing boundaries. *)
Lemma boundaries_strictly_ascending (axes : list Axis) (T : Q) :
  0 < T -> Forall interior axes -> distinct_values axes ->
  strictly_ascending 0 (boundaries_of (sort_axes axes) T).
Proof.
  intros HT Hall Hdist. unfold boundaries_of.
  apply strictly_ascending_snoc.
  - rewrite <- (map_map value (fun v => v / 100 * T)).
    apply strictly_ascending_from_eq with (0 / 100 * T).
    + unfold Qdiv. ring.
    + apply strictly_ascending_scale; [exact HT|].
      apply sort_axes_strictly_ascending; [|exact Hdist].
      eapply Forall_impl; [exact Hall|]. intros a [H0 _]. exact H0.
  - exact HT.
  - apply List.Forall_map.
    assert (Forall interior (sort_axes axes)) as Hs.
    { eapply Permutation_Forall; [|exact Hall]. symmetry. apply sort_axes_perm. }
    eapply Forall_impl; [exact Hs|]. intros a [_ H100]. simpl.
    assert (T == 100 / 100 * T) as Heq by field.
    rewrite Heq at 2. apply scale_lt; assumption.
Qed.

(** X3: no gap is dropped, that is [calculateSegments] returns one
    segment more than there are axes, with the indices 0, 1, 2, ... in
    order, exactly when the boundaries it computes, [(value / 100) * T] for
    the sorted axes and then [T], are strictly increasing from 0.  (The
    comparison is between the computed boundaries: two different axis
    values whose boundaries come out equal leave a gap of length 0, which
    is dropped.) *)
Theorem calculateSegments_no_gap_dropped
    (axes : list Axis) (T : Q) (scalingArray : list bool) :
  map Segment.index (calculateSegments axes T scalingArray)
  = seq 0 (List.length axes + 1)
  <-> strictly_ascending 0 (boundaries_of (sort_axes axes) T).
Proof.
  rewrite calculateSegments_walk.
  assert (List.length (boundaries_of (sort_axes axes) T)
          = (List.length axes + 1)%nat) as Hlen.
  { unfold boundaries_of.
    rewrite length_app, length_map, sort_axes_length. reflexivity. }
  rewrite <- Hlen. split.
  - apply walk_all_emitted.
  - apply walk_strictly_ascending.
Qed.

Lemma calculateSegments_no_gap_dropped_witness :
  strictly_ascending 0 (boundaries_of (sort_axes [ax "b" 75; ax "a" 25]) 400)
  /\ map Segment.index three_slice = [0; 1; 2]%nat.
Proof.
  assert (strictly_ascending 0
            (boundaries_of (sort_axes [ax "b" 75; ax "a" 25]) 400)) as Hasc
    by (vm_compute; repeat split).
  split; [exact Hasc|].
  exact (proj2 (calculateSegments_no_gap_dropped _ 400 [false; true; false])
           Hasc).
Defined.

End GapTheorems.

(** ** More on the destination layout *)

Section LayoutShape.
Local Open Scope Q_scope.

Lemma layout_contiguous (sf tsl av c : Q) (segs : list Segment.t) :
  (forall d : DestSegment.t,
      layout sf tsl av c segs !! 0%nat = Some d -> DestSegment.start d = c)
  /\ (forall (i : nat) (d d' : DestSegment.t),
        layout sf tsl av c segs !! i = Some d ->
        layout sf tsl av c segs !! S i = Some d' ->
        DestSegment.start d' = DestSegment.start d + DestSegment.length d).
Proof.
  revert c. induction segs as [|seg segs IH]; intros c; simpl.
  - split; intros; discriminate.
  - split.
    + intros d [= <-]. reflexivity.
    + intros i d d' Hd Hd'. destruct i as [|i].
      * injection Hd as <-. simpl in Hd'.
        apply (proj1 (IH _)) in Hd'. exact Hd'.
      * simpl in Hd, Hd'. eapply (proj2 (IH _)); eassumption.
Qed.

(** X4: for every list of source segments and every target size the
    destination segments start at 0 and are contiguous. *)
Theorem calculateDestinationSegments_contiguous
    (segs : list Segment.t) (S : Q) :
  dest_contiguous (calculateDestinationSegments segs S).
Proof.
  rewrite calculateDestinationSegments_layout. apply layout_contiguous.
Qed.

Lemma availableScaleSpace_none (segs : list Segment.t) (S : Q) :
  S <= totalFixed_of segs -> availableScaleSpace_of segs S == 0.
Proof.
  intros H. unfold availableScaleSpace_of. apply Q.max_l. lra.
Qed.

Lemma scale_factor_none (tsl av : Q) : av == 0 -> scale_factor tsl av * tsl == 0.
Proof.
  intros Hav. unfold scale_factor.
  destruct (Qeq_bool tsl 0) eqn:E; [ring|].
  apply Qeq_bool_false in E. rewrite Hav. field. exact E.
Qed.

Lemma sum_dest_when_short (segs : list Segment.t) (S : Q) :
  S < totalFixed_of segs -> ~ totalFixed_of segs == 0 ->
  sum_dest_lengths (calculateDestinationSegments segs S) == S.
Proof.
  intros Hlt Hne.
  rewrite sum_dest_lengths_Qsum, calculateDestinationSegments_lengths,
    Qsum_destLength.
  fold (totalFixed_of segs). fold (totalScaleSourceLength_of segs).
  rewrite scale_factor_none
    by (apply availableScaleSpace_none, Qlt_le_weak, Hlt).
  unfold scaleFixed_of. apply Qlt_bool_iff in Hlt. rewrite Hlt.
  field. exact Hne.
Qed.

Lemma scalable_collapsed (segs : list Segment.t) (S : Q) (s : Segment.t) :
  S <= totalFixed_of segs -> Segment.isFixed s = false ->
  destLength_of (scaleFixed_of segs S) (totalScaleSourceLength_of segs)
    (availableScaleSpace_of segs S) s == 0.
Proof.
  intros Hle Hs.
  rewrite destLength_scalable by exact Hs.
  unfold scale_factor.
  destruct (Qeq_bool (totalScaleSourceLength_of segs) 0) eqn:E; [ring|].
  apply Qeq_bool_false in E.
  rewrite (availableScaleSpace_none _ _ Hle). field. exact E.
Qed.

(** X5: when the target is smaller than the fixed total (and that total is
    not 0), the destination lengths sum to the target and every scalable
    segment gets length 0, whether or not scalable segments exist. *)
Theorem calculateDestinationSegments_shrunk
    (segs : list Segment.t) (S : Q) :
  S < totalFixed_of segs -> ~ totalFixed_of segs == 0 ->
  shrunk_to_target segs S.
Proof.
  intros Hlt Hne. split; [apply sum_dest_when_short; assumption|].
  intros i s d Hs Hd Hscal.
  rewrite (calculateDestinationSegments_lookup _ _ _ _ _ Hs Hd).
  apply scalable_collapsed; [apply Qlt_le_weak, Hlt|exact Hscal].
Qed.

Lemma calculateDestinationSegments_shrunk_witness :
  100 < totalFixed_of three_slice
  /\ ~ totalFixed_of three_slice == 0
  /\ shrunk_to_target three_slice 100.
Proof.
  assert (100 < totalFixed_of three_slice) as Hlt by (vm_compute; reflexivity).
  assert (~ totalFixed_of three_slice == 0) as Hne
    by (intros H; vm_compute in H; discriminate).
  split; [exact Hlt|]. split; [exact Hne|].
  exact (calculateDestinationSegments_shrunk three_slice 100 Hlt Hne).
Defined.

(** X6: in exact arithmetic a target that is not negative is never
    overrun: the destination lengths sum to at most the target size.  (The
    source rounds every product and quotient, and its sum can exceed the
    target by a rounding error.) *)
Theorem calculateDestinationSegments_within_target
    (segs : list Segment.t) (S : Q) :
  0 <= S ->
  sum_dest_lengths (calculateDestinationSegments segs S) <= S.
Proof.
  intros HS. destruct (Qlt_le_dec S (totalFixed_of segs)) as [Hlt|Hle].
  - rewrite sum_dest_when_short; [lra|exact Hlt|lra].
  - rewrite (sum_dest_when_room _ _ Hle).
    destruct (Qeq_bool (totalScaleSourceLength_of segs) 0); lra.
Qed.

Lemma calculateDestinationSegments_within_target_witness :
  0 <= 200
  /\ sum_dest_lengths (calculateDestinationSegments unsliced 200) <= 200.
Proof.
  assert (0 <= 200) as HS by discriminate.
  split; [exact HS|].
  exact (calculateDestinationSegments_within_target unsliced 200 HS).
Defined.

Lemma sum_lengths_nonneg (segs : list Segment.t) :
  Forall (fun s => 0 <= Segment.length s) segs -> 0 <= sum_lengths segs.
Proof.
  induction 1 as [|s segs Hs Hall IH].
  - unfold sum_lengths. simpl. lra.
  - rewrite sum_lengths_cons. lra.
Qed.

Lemma filter_Forall_keep {A : Type} (P : A -> Prop) (f : A -> bool) (l : list A) :
  Forall P l -> Forall P (List.filter f l).
Proof.
  induction 1 as [|x l Hx Hall IH]; simpl; [constructor|].
  destruct (f x); [constructor; assumption|exact IH].
Qed.

Lemma Qdiv_nonneg (a b : Q) : 0 <= a -> 0 < b -> 0 <= a / b.
Proof.
  intros Ha Hb. apply Qle_shift_div_l; [exact Hb|]. lra.
Qed.

(** X8: with source lengths and a target that are not negative, no
    destination length is negative. *)
Theorem calculateDestinationSegments_nonnegative
    (segs : list Segment.t) (S : Q) :
  Forall (fun s => 0 <= Segment.length s) segs -> 0 <= S ->
  Forall (fun d => 0 <= DestSegment.length d)
    (calculateDestinationSegments segs S).
Proof.
  intros Hall HS.
  apply List.Forall_map with (f := DestSegment.length) (P := fun q => 0 <= q).
  rewrite calculateDestinationSegments_lengths.
  apply List.Forall_map. eapply Forall_impl; [exact Hall|].
  intros s Hs. simpl. unfold destLength_of.
  destruct (Segment.isFixed s).
  - apply Qmult_le_0_compat; [exact Hs|].
    unfold scaleFixed_of.
    destruct (Qlt_bool S (totalFixed_of segs)) eqn:E; [|discriminate].
    apply Qlt_bool_iff in E. apply Qdiv_nonneg; lra.
  - destruct (Qeq_bool (totalScaleSourceLength_of segs) 0) eqn:E; [lra|].
    apply Qeq_bool_false in E. cbv zeta.
    assert (0 <= totalScaleSourceLength_of segs) as Htsl
      by (apply sum_lengths_nonneg, filter_Forall_keep, Hall).
    apply Qmult_le_0_compat.
    + apply Qdiv_nonneg; [exact Hs|lra].
    + unfold availableScaleSpace_of. apply Q.le_max_l.
Qed.

Lemma calculateDestinationSegments_nonnegative_witness :
  Forall (fun s => 0 <= Segment.length s) three_slice
  /\ 0 <= 100
  /\ Forall (fun d => 0 <= DestSegment.length d)
       (calculateDestinationSegments three_slice 100).
Proof.
  assert (Forall (fun s => 0 <= Segment.length s) three_slice) as Hall
    by (repeat constructor; discriminate).
  assert (0 <= 100) as HS by discriminate.
  split; [exact Hall|]. split; [exact HS|].
  exact (calculateDestinationSegments_nonnegative three_slice 100 Hall HS).
Defined.

End LayoutShape.

(** ** The layout at the size of the source *)

Section NativeSize.
Local Open Scope Q_scope.

Lemma sum_lengths_split (segs : list Segment.t) :
  totalFixed_of segs + totalScaleSourceLength_of segs == sum_lengths segs.
Proof.
  unfold totalFixed_of, totalScaleSourceLength_of.
  induction segs as [|s segs IH]; simpl.
  - unfold sum_lengths. simpl. lra.
  - rewrite sum_lengths_cons.
    destruct (Segment.isFixed s); simpl; rewrite sum_lengths_cons; lra.
Qed.

Lemma scalable_le_total (segs : list Segment.t) (s : Segment.t) :
  Forall (fun s => 0 <= Segment.length s) segs ->
  s ∈ segs -> Segment.isFixed s = false ->
  Segment.length s <= totalScaleSourceLength_of segs.
Proof.
  unfold totalScaleSourceLength_of.
  induction 1 as [|x segs Hx Hall IH]; intros Hin Hs.
  - inversion Hin.
  - assert (0 <= sum_lengths
                   (List.filter (fun s => negb (Segment.isFixed s)) segs))
      as Hrest by (apply sum_lengths_nonneg, filter_Forall_keep, Hall).
    apply elem_of_cons in Hin as [->|Hin]; simpl.
    + rewrite Hs. simpl. rewrite sum_lengths_cons. lra.
    + specialize (IH Hin Hs).
      destruct (Segment.isFixed x); simpl; [exact IH|].
      rewrite sum_lengths_cons. lra.
Qed.

Lemma destLength_native (segs : list Segment.t) (S : Q) (s : Segment.t) :
  Forall (fun s => 0 < Segment.length s) segs -> s ∈ segs ->
  sum_lengths segs == S ->
  destLength_of (scaleFixed_of segs S)
    (totalScaleSourceLength_of segs)
    (availableScaleSpace_of segs S) s
  == Segment.length s.
Proof.
  intros Hpos Hin Hsum.
  assert (Forall (fun s => 0 <= Segment.length s) segs) as Hnn.
  { eapply Forall_impl; [exact Hpos|]. intros x Hx. simpl in Hx. lra. }
  pose proof (sum_lengths_split segs) as Hsplit.
  assert (0 <= totalScaleSourceLength_of segs) as Htsl
    by (apply sum_lengths_nonneg, filter_Forall_keep, Hnn).
  unfold destLength_of. destruct (Segment.isFixed s) eqn:Hs.
  - rewrite scaleFixed_one by lra. ring.
  - pose proof (scalable_le_total segs s Hnn Hin Hs) as Hle.
    assert (0 < Segment.length s) as Hlen.
    { rewrite Forall_forall in Hpos. apply Hpos, Hin. }
    assert (~ totalScaleSourceLength_of segs == 0) as Hne by lra.
    apply Qeq_bool_false in Hne as E. rewrite E. cbv zeta.
    assert (availableScaleSpace_of segs S
            == totalScaleSourceLength_of segs) as ->.
    { unfold availableScaleSpace_of. rewrite Q.max_r; lra. }
    field. exact Hne.
Qed.

Lemma layout_same_piece (sf tsl av c c' e : Q) (segs : list Segment.t) :
  chain c segs e -> c' == c ->
  Forall (fun s => destLength_of sf tsl av s == Segment.length s) segs ->
  Forall2 same_piece segs (layout sf tsl av c' segs).
Proof.
  revert c c'. induction segs as [|s segs IH]; intros c c' Hch Hc Hall; simpl.
  - constructor.
  - destruct Hch as [Hstart Hrest]. inversion Hall as [|? ? Hs Hall']; subst.
    constructor.
    + unfold same_piece. simpl. repeat split; [lra|exact Hs].
    + eapply IH; [exact Hrest| |exact Hall'].
      cbv zeta. rewrite Hs. lra.
Qed.

(** X10: in exact arithmetic, laid out at the size of the source, every
    segment of a partition keeps its place and its length: the preview at
    the image's own size is the image.  (In the source the starts and
    lengths are kept up to the rounding of the products and quotients;
    the index is kept exactly.) *)
Theorem native_size_layout
    (axes : list Axis) (T : Q) (scalingArray : list bool) :
  0 < T -> Forall percent axes ->
  Forall2 same_piece
    (calculateSegments axes T scalingArray)
    (calculateDestinationSegments (calculateSegments axes T scalingArray) T).
Proof.
  intros HT Hall.
  set (segs := calculateSegments axes T scalingArray).
  assert (chain 0 segs T) as Hch.
  { unfold segs. rewrite calculateSegments_walk.
    pose proof (walk_chain scalingArray 0 0 _
                  (boundaries_ascending axes T (Qlt_le_weak _ _ HT) Hall)) as H.
    unfold boundaries_of in H at 2. rewrite last_last in H. exact H. }
  assert (Forall (fun s => 0 < Segment.length s) segs) as Hpos.
  { unfold segs. rewrite calculateSegments_walk. apply walk_positive. }
  assert (sum_lengths segs == T) as Hsum
    by (rewrite (chain_sum _ _ _ Hch); lra).
  rewrite calculateDestinationSegments_layout.
  eapply layout_same_piece; [exact Hch|reflexivity|].
  apply Forall_forall. intros s Hin.
  apply destLength_native; assumption.
Qed.

Lemma native_size_layout_witness :
  0 < 400
  /\ Forall percent [ax "b" 75; ax "a" 25]
  /\ Forall2 same_piece three_slice
       (calculateDestinationSegments three_slice 400).
Proof.
  assert (0 < 400) as HT by reflexivity.
  assert (Forall percent [ax "b" 75; ax "a" 25]) as Hall
    by (repeat constructor; simpl; discriminate).
  split; [exact HT|]. split; [exact Hall|].
  exact (native_size_layout _ 400 [false; true; false] HT Hall).
Defined.

End NativeSize.

(** ** Growing the target *)

Section Monotone.
Local Open Scope Q_scope.

Lemma scaleFixed_mono (segs : list Segment.t) (S S' : Q) :
  Forall (fun s => 0 <= Segment.length s) segs ->
  0 <= S -> S <= S' ->
  scaleFixed_of segs S <= scaleFixed_of segs S'.
Proof.
  intros Hnn HS HSS'. unfold scaleFixed_of.
  destruct (Qlt_bool S (totalFixed_of segs)) eqn:E;
    destruct (Qlt_bool S' (totalFixed_of segs)) eqn:E'.
  - apply Qlt_bool_iff in E.
    unfold Qdiv. apply Qmult_le_compat_r; [exact HSS'|].
    apply Qinv_le_0_compat. lra.
  - apply Qlt_bool_iff in E.
    apply Qle_shift_div_r; lra.
  - apply Qlt_bool_false in E. apply Qlt_bool_iff in E'. lra.
  - lra.
Qed.

Lemma destLength_mono (segs : list Segment.t) (S S' : Q) (s : Segment.t) :
  Forall (fun s => 0 <= Segment.length s) segs ->
  0 <= Segment.length s -> 0 <= S -> S <= S' ->
  destLength_of (scaleFixed_of segs S) (totalScaleSourceLength_of segs)
    (availableScaleSpace_of segs S) s
  <= destLength_of (scaleFixed_of segs S') (totalScaleSourceLength_of segs)
       (availableScaleSpace_of segs S') s.
Proof.
  intros Hnn Hs HS HSS'. unfold destLength_of.
  destruct (Segment.isFixed s).
  - rewrite !(Qmult_comm (Segment.length s)).
    apply Qmult_le_compat_r; [|exact Hs].
    apply scaleFixed_mono; assumption.
  - destruct (Qeq_bool (totalScaleSourceLength_of segs) 0) eqn:E; [lra|].
    apply Qeq_bool_false in E. cbv zeta.
    assert (0 <= totalScaleSourceLength_of segs) as Htsl
      by (apply sum_lengths_nonneg, filter_Forall_keep, Hnn).
    rewrite !(Qmult_comm (Segment.length s / totalScaleSourceLength_of segs)).
    apply Qmult_le_compat_r.
    + unfold availableScaleSpace_of. apply Q.max_le_compat_l. lra.
    + apply Qdiv_nonneg; [exact Hs|lra].
Qed.

(** X9: with source lengths that are not negative, a larger target (from 0
    upwards) shrinks no destination segment. *)
Theorem calculateDestinationSegments_monotone
    (segs : list Segment.t) (S S' : Q) :
  Forall (fun s => 0 <= Segment.length s) segs ->
  0 <= S -> S <= S' ->
  Forall2 (fun d d' => DestSegment.length d <= DestSegment.length d')
    (calculateDestinationSegments segs S)
    (calculateDestinationSegments segs S').
Proof.
  intros Hnn HS HSS'.
  apply Forall2_fmap with (f := DestSegment.length) (g := DestSegment.length)
                          (P := Qle).
  change (@fmap list _ _ _ DestSegment.length) with (map DestSegment.length).
  rewrite !calculateDestinationSegments_lengths.
  apply Forall2_fmap, Forall_Forall2_diag.
  apply Forall_forall. intros s Hin.
  apply destLength_mono; try assumption.
  rewrite Forall_forall in Hnn. apply Hnn, Hin.
Qed.

Lemma calculateDestinationSegments_monotone_witness :
  Forall (fun s => 0 <= Segment.length s) three_slice
  /\ 0 <= 100 /\ 100 <= 500
  /\ Forall2 (fun d d' => DestSegment.length d <= DestSegment.length d')
       (calculateDestinationSegments three_slice 100)
       (calculateDestinationSegments three_slice 500).
Proof.
  assert (Forall (fun s => 0 <= Segment.length s) three_slice) as Hnn
    by (repeat constructor; discriminate).
  assert (0 <= 100) as HS by discriminate.
  assert (100 <= 500) as HSS' by discriminate.
  split; [exact Hnn|]. split; [exact HS|]. split; [exact HSS'|].
  exact (calculateDestinationSegments_monotone three_slice 100 500 Hnn HS HSS').
Defined.

End Monotone.

(** ** The keys of the tile map *)

Section TileKeys.

Lemma pretty_N_char_no_dash (x : N) :
  String (pretty_N_char x) EmptyString <> "-".
Proof. unfold pretty_N_char. repeat case_match; discriminate. Qed.

Lemma pretty_N_go_no_dash (x : N) (s : string) :
  no_dash s -> no_dash (pretty_N_go x s).
Proof.
  revert s. induction (N.lt_wf_0 x) as [x _ IH]; intros s Hs.
  destruct (decide (x = 0%N)) as [->|Hne].
  - rewrite pretty_N_go_0. exact Hs.
  - rewrite pretty_N_go_step by lia. apply IH.
    + apply N.div_lt; lia.
    + split; [apply pretty_N_char_no_dash|exact Hs].
Qed.

Lemma pretty_nat_no_dash (n : nat) : no_dash (pretty n).
Proof.
  unfold pretty, pretty_nat, pretty, pretty_N.
  case_decide.
  - simpl. split; [discriminate|exact I].
  - apply pretty_N_go_no_dash. exact I.
Qed.

Lemma split_at_dash (s1 s2 t1 t2 : string) :
  no_dash s1 -> no_dash s2 ->
  s1 +:+ "-" +:+ t1 = s2 +:+ "-" +:+ t2 -> s1 = s2 /\ t1 = t2.
Proof.
  revert s2. induction s1 as [|a s1 IH]; intros s2 H1 H2 Heq.
  - destruct s2 as [|b s2]; cbn in Heq.
    + injection Heq as Heq. split; [reflexivity|exact Heq].
    + injection Heq as Hb _. destruct H2 as [H2 _]. subst b.
      contradiction.
  - destruct s2 as [|b s2]; cbn in Heq.
    + injection Heq as Ha _. destruct H1 as [H1 _]. subst a.
      contradiction.
    + injection Heq as Hab Heq. subst b.
      destruct H1 as [_ H1]. destruct H2 as [_ H2].
      destruct (IH s2 H1 H2 Heq) as [-> ->]. split; reflexivity.
Qed.

Lemma tile_key_inj (r c r' c' : nat) :
  tile_key r c = tile_key r' c' -> r = r' /\ c = c'.
Proof.
  unfold tile_key. intros Heq.
  apply split_at_dash in Heq as [Hr Hc]; try apply pretty_nat_no_dash.
  split; apply (inj pretty); assumption.
Qed.

(** X12: setting the mode of a cell in the inspector makes it the effective
    mode of that cell and changes the effective mode of no other cell. *)
Theorem handleTileChange_effective_mode
    (row col : nat) (m : TileMode) (st : AppState.t) (r c : nat) :
  getEffectiveTileMode (AppState.tiles (handleTileChange row col m st)) r c
  = if decide (r = row /\ c = col) then m
    else getEffectiveTileMode (AppState.tiles st) r c.
Proof.
  unfold handleTileChange, getEffectiveTileMode. simpl.
  case_decide as Hcell.
  - destruct Hcell as [-> ->]. rewrite lookup_insert_eq. reflexivity.
  - rewrite lookup_insert_ne; [reflexivity|].
    intros Heq. apply tile_key_inj in Heq as [-> ->]. tauto.
Qed.

Lemma dense_row_grid (tiles : TileMap) (R C r : nat) (cs : list nat)
    (acc : TileMap) (key : string) :
  (r < R)%nat -> Forall (fun c => c < C)%nat cs ->
  is_Some
    (fold_left
       (fun acc c =>
          <[ tile_key r c := {| mode := getEffectiveTileMode tiles r c |} ]> acc)
       cs acc !! key) ->
  is_Some (acc !! key) \/ grid_key R C key.
Proof.
  intros Hr. revert acc.
  induction cs as [|c cs IH]; intros acc Hcs Hsome; simpl in Hsome;
    [left; exact Hsome|].
  inversion Hcs as [|? ? Hc Hcs']; subst.
  destruct (IH _ Hcs' Hsome) as [Hacc|Hgrid]; [|right; exact Hgrid].
  apply lookup_insert_is_Some' in Hacc as [<-|Hacc].
  - right. exists r, c. auto.
  - left. exact Hacc.
Qed.

Lemma dense_rows_grid (tiles : TileMap) (R C : nat) (rs : list nat)
    (acc : TileMap) (key : string) :
  Forall (fun r => r < R)%nat rs ->
  is_Some (fold_left (dense_row tiles C) rs acc !! key) ->
  is_Some (acc !! key) \/ grid_key R C key.
Proof.
  revert acc. induction rs as [|r rs IH]; intros acc Hrs Hsome;
    simpl in Hsome; [left; exact Hsome|].
  inversion Hrs as [|? ? Hr Hrs']; subst.
  destruct (IH _ Hrs' Hsome) as [Hacc|Hgrid]; [|right; exact Hgrid].
  unfold dense_row in Hacc.
  apply (dense_row_grid tiles R C r (seq 0 C)) in Hacc; [exact Hacc|exact Hr|].
  apply Forall_forall. intros c Hc. apply elem_of_seq in Hc. lia.
Qed.

Lemma dense_tiles_grid (tiles : TileMap) (R C : nat) (key : string) :
  is_Some (dense_tiles tiles R C !! key) -> grid_key R C key.
Proof.
  intros Hsome. unfold dense_tiles in Hsome.
  apply (dense_rows_grid tiles R C) in Hsome as [Hempty|Hgrid].
  - rewrite lookup_empty in Hempty. destruct Hempty as [? ?]. discriminate.
  - exact Hgrid.
  - apply Forall_forall. intros r Hr. apply elem_of_seq in Hr. lia.
Qed.

(** X13: the exported tile map has an entry under a key exactly when the key
    is that of a cell of the grid, whatever the tile map held: entries
    for cells outside the grid are not exported. *)
Theorem dense_tiles_domain (tiles : TileMap) (numRows numCols : nat)
    (key : string) :
  is_Some (dense_tiles tiles numRows numCols !! key)
  <-> grid_key numRows numCols key.
Proof.
  split; [apply dense_tiles_grid|].
  intros (r & c & Hr & Hc & ->).
  rewrite dense_tiles_lookup by assumption. eauto.
Qed.

Lemma dense_tiles_idempotent (tiles : TileMap) (R C : nat) :
  dense_tiles (dense_tiles tiles R C) R C = dense_tiles tiles R C.
Proof.
  apply map_eq. intros key.
  destruct (dense_tiles tiles R C !! key) as [cfg|] eqn:E.
  - destruct (dense_tiles_grid tiles R C key) as (r & c & Hr & Hc & ->);
      [eauto|].
    rewrite dense_tiles_lookup by assumption.
    unfold getEffectiveTileMode. rewrite E. destruct cfg. reflexivity.
  - destruct (dense_tiles (dense_tiles tiles R C) R C !! key) eqn:E';
      [|reflexivity].
    destruct (dense_tiles_grid (dense_tiles tiles R C) R C key)
      as (r & c & Hr & Hc & ->); [eauto|].
    rewrite dense_tiles_lookup in E by assumption. discriminate.
Qed.

End TileKeys.

(** ** The document written and read back *)

Section RoundTrip.

(** X15: exporting a state and loading the document gives back the axes, the
    scaling flags and (unless it is empty) the file name, with no axis
    selected; and exporting again gives the same document. *)
Theorem export_import_state (st st' : AppState.t) :
  AppState.xAxes (export_import st st') = AppState.xAxes st
  /\ AppState.yAxes (export_import st st') = AppState.yAxes st
  /\ AppState.rowScaling (export_import st st') = AppState.rowScaling st
  /\ AppState.colScaling (export_import st st') = AppState.colScaling st
  /\ AppState.selectedAxis (export_import st st') = None
  /\ AppState.filename (export_import st st')
     = (if String.eqb (AppState.filename st) ""
        then AppState.filename st' else AppState.filename st)
  /\ (AppState.filename st <> "" ->
      generateJSON (export_import st st') = generateJSON st).
Proof.
  repeat (split; [reflexivity|]).
  intros Hname. unfold export_import, generateJSON, handleLoadJson. simpl.
  apply String.eqb_neq in Hname. rewrite Hname.
  rewrite dense_tiles_idempotent. reflexivity.
Qed.

Lemma export_import_state_witness :
  AppState.filename one_hidden_tile <> ""
  /\ generateJSON (export_import one_hidden_tile initial_state)
     = generateJSON one_hidden_tile.
Proof.
  assert (AppState.filename one_hidden_tile <> "") as Hname by discriminate.
  split; [exact Hname|].
  destruct (export_import_state one_hidden_tile initial_state)
    as (_ & _ & _ & _ & _ & _ & Hagain).
  exact (Hagain Hname).
Defined.

(** X16: loading a document that has neither scaling array gives a state with
    one flag per segment in both dimensions, whatever axes it has. *)
Theorem handleLoadJson_legacy_in_sync (config : NSliceConfig.t) (st : AppState.t) :
  NSliceConfig.rowScaling config = None ->
  NSliceConfig.colScaling config = None ->
  scaling_in_sync (handleLoadJson config st).
Proof.
  intros Hrow Hcol. unfold scaling_in_sync, handleLoadJson. simpl.
  rewrite Hrow, Hcol, !generateDefaultScaling_length.
  destruct (NSliceConfig.xAxes config), (NSliceConfig.yAxes config);
    split; reflexivity.
Qed.

Lemma handleLoadJson_legacy_in_sync_witness :
  NSliceConfig.rowScaling legacy_document = None
  /\ NSliceConfig.colScaling legacy_document = None
  /\ scaling_in_sync (handleLoadJson legacy_document initial_state).
Proof.
  split; [reflexivity|]. split; [reflexivity|].
  exact (handleLoadJson_legacy_in_sync legacy_document initial_state
           eq_refl eq_refl).
Defined.

End RoundTrip.

(** ** Toggling a scaling flag *)

Section Toggle.
Local Open Scope Q_scope.

Lemma toggle_flag_lookup (i : nat) (sc sc' : list bool) (j : nat) :
  toggle_flag i sc = Some sc' ->
  default false (sc' !! j)
  = if (j =? i)%nat then negb (default false (sc !! j))
    else default false (sc !! j).
Proof.
  unfold toggle_flag. intros Htog.
  destruct (sc !! i) as [b|] eqn:E.
  - injection Htog as <-.
    destruct (Nat.eqb_spec j i) as [->|Hne].
    + rewrite list_lookup_insert_eq by (eapply lookup_lt_Some; exact E).
      rewrite E. reflexivity.
    + rewrite list_lookup_insert_ne by congruence. reflexivity.
  - destruct (Nat.eqb_spec i (List.length sc)) as [->|Hne]; [|discriminate].
    injection Htog as <-.
    destruct (Nat.eqb_spec j (List.length sc)) as [->|Hne].
    + rewrite E. rewrite lookup_app_r by lia.
      rewrite Nat.sub_diag. reflexivity.
    + destruct (decide (j < List.length sc)%nat) as [Hlt|Hge].
      * rewrite lookup_app_l by exact Hlt. reflexivity.
      * rewrite !lookup_ge_None_2; [reflexivity|lia|].
        rewrite length_app. simpl. lia.
Qed.

Lemma walk_toggle (i : nat) (sc sc' : list bool) (k : nat) (c : Q) (bs : list Q) :
  toggle_flag i sc = Some sc' ->
  walk sc' k c bs = map (flip_at i) (walk sc k c bs).
Proof.
  intros Htog. revert k c.
  induction bs as [|b bs IH]; intros k c; simpl; [reflexivity|].
  rewrite map_app, IH. f_equal.
  destruct (Qlt_bool 0 (b - c)); simpl; [|reflexivity].
  unfold flip_at. simpl.
  rewrite (toggle_flag_lookup i sc sc' k Htog).
  destruct (k =? i)%nat; reflexivity.
Qed.

(** X17: toggling the flag at an index negates the fixed flag of the segment
    with that index and leaves every other segment of the partition as it
    was. *)
Theorem toggle_flag_calculateSegments
    (i : nat) (sc sc' : list bool) (axes : list Axis) (T : Q) :
  toggle_flag i sc = Some sc' ->
  calculateSegments axes T sc' = map (flip_at i) (calculateSegments axes T sc).
Proof.
  intros Htog. rewrite !calculateSegments_walk. apply walk_toggle, Htog.
Qed.

Lemma toggle_flag_calculateSegments_witness :
  toggle_flag 1 [false; true; false] = Some [false; false; false]
  /\ map Segment.isFixed
       (calculateSegments [ax "b" 75; ax "a" 25] 400 [false; false; false])
     = [true; true; true].
Proof.
  assert (toggle_flag 1 [false; true; false] = Some [false; false; false])
    as Htog by reflexivity.
  split; [exact Htog|].
  rewrite (toggle_flag_calculateSegments 1 _ _ [ax "b" 75; ax "a" 25] 400 Htog).
  reflexivity.
Defined.

(** X18: toggling a flag of the array twice gives the array back, and a toggle
    within the array keeps its length. *)
Theorem toggle_flag_twice (i : nat) (sc : list bool) :
  (i < List.length sc)%nat ->
  exists sc' : list bool,
    toggle_flag i sc = Some sc'
    /\ List.length sc' = List.length sc
    /\ toggle_flag i sc' = Some sc.
Proof.
  intros Hi. unfold toggle_flag.
  destruct (lookup_lt_is_Some_2 sc i Hi) as [b Hb]. rewrite Hb.
  eexists. split; [reflexivity|]. split; [apply length_insert|].
  rewrite list_lookup_insert_eq by exact Hi.
  rewrite list_insert_insert_eq, negb_involutive.
  rewrite list_insert_id by exact Hb. reflexivity.
Qed.

Lemma toggle_flag_twice_witness :
  (1 < List.length [false; true; false])%nat
  /\ exists sc' : list bool,
       toggle_flag 1 [false; true; false] = Some sc'
       /\ List.length sc' = List.length [false; true; false]
       /\ toggle_flag 1 sc' = Some [false; true; false].
Proof.
  assert (1 < List.length [false; true; false])%nat as Hi by (simpl; lia).
  split; [exact Hi|].
  exact (toggle_flag_twice 1 [false; true; false] Hi).
Defined.

End Toggle.

(** ** Adding an axis and taking it away again *)

Section AddThenDelete.

Lemma remove_axis_absent (i : string) (axes : list Axis) :
  count_id i axes = 0 -> remove_axis i axes = axes.
Proof.
  unfold count_id, remove_axis.
  induction axes as [|a axes IH]; simpl; [reflexivity|].
  destruct (String.eqb (id a) i); simpl; [discriminate|].
  intros H. rewrite IH by exact H. reflexivity.
Qed.

Lemma remove_axis_app (i : string) (l1 l2 : list Axis) :
  remove_axis i (l1 ++ l2) = remove_axis i l1 ++ remove_axis i l2.
Proof. unfold remove_axis. apply List.filter_app. Qed.

(** X19: deleting the axis that was just added gives back the axes and the
    scaling flags as they were, with no axis selected, provided no other
    axis of that dimension carries the new identifier. *)
Theorem handleDeleteAxis_after_add
    (now : N) (type : AxisType) (st : AppState.t) :
  count_id (new_axis_id now type) (axes_of type st) = 0 ->
  handleDeleteAxis (new_axis_id now type) type (handleAddAxis now type st)
  = deselect st.
Proof.
  intros Hfresh. unfold new_axis_id in *.
  destruct st as [fn xs ys rs cs ts sel].
  destruct type; simpl in *; unfold deselect; simpl;
    rewrite String.eqb_refl, remove_axis_app, (remove_axis_absent _ _ Hfresh),
      slice_0_minus1_snoc;
    unfold remove_axis; simpl; rewrite String.eqb_refl; simpl;
    rewrite app_nil_r; reflexivity.
Qed.

Lemma handleDeleteAxis_after_add_witness :
  count_id (new_axis_id 1700000000000 AxisX) (axes_of AxisX initial_state) = 0
  /\ handleDeleteAxis (new_axis_id 1700000000000 AxisX) AxisX
       (handleAddAxis 1700000000000 AxisX initial_state)
     = deselect initial_state.
Proof.
  assert (count_id (new_axis_id 1700000000000 AxisX)
            (axes_of AxisX initial_state) = 0) as Hfresh by reflexivity.
  split; [exact Hfresh|].
  exact (handleDeleteAxis_after_add 1700000000000 AxisX initial_state Hfresh).
Defined.

Lemma generateDefaultScaling_succ (n : nat) :
  generateDefaultScaling (S n)
  = generateDefaultScaling n ++ [negb (n mod 2 =? 0)].
Proof.
  rewrite !generateDefaultScaling_seq, seq_S, map_app. reflexivity.
Qed.

(** X20: adding an axis to a dimension flagged with the default alternating
    pattern leaves it flagged with the default pattern for one segment
    more. *)
Theorem handleAddAxis_default_pattern
    (now : N) (type : AxisType) (st : AppState.t) :
  scaling_of type st
  = generateDefaultScaling (List.length (axes_of type st) + 1) ->
  scaling_of type (handleAddAxis now type st)
  = generateDefaultScaling
      (List.length (axes_of type (handleAddAxis now type st)) + 1).
Proof.
  intros Hdef.
  destruct type; simpl in *; rewrite Hdef, length_app; simpl;
    rewrite (Nat.add_1_r (_ + 1)), generateDefaultScaling_succ; reflexivity.
Qed.

Lemma handleAddAxis_default_pattern_witness :
  scaling_of AxisX initial_state
  = generateDefaultScaling (List.length (axes_of AxisX initial_state) + 1)
  /\ scaling_of AxisX (handleAddAxis 1700000000000 AxisX initial_state)
     = [false; true; false; true].
Proof.
  assert (scaling_of AxisX initial_state
          = generateDefaultScaling
              (List.length (axes_of AxisX initial_state) + 1)) as Hdef
    by reflexivity.
  split; [exact Hdef|].
  rewrite (handleAddAxis_default_pattern 1700000000000 AxisX initial_state Hdef).
  reflexivity.
Defined.

End AddThenDelete.

(** ** The destination stays inside the target *)

Section Within.
Local Open Scope Q_scope.

Lemma Qsum_nonneg (l : list Q) : Forall (fun q => 0 <= q) l -> 0 <= Qsum l.
Proof.
  induction 1 as [|x l Hx Hall IH]; [rewrite Qsum_nil; lra|].
  rewrite Qsum_cons. lra.
Qed.

Lemma layout_within (sf tsl av c : Q) (segs : list Segment.t) :
  Forall (fun s => 0 <= destLength_of sf tsl av s) segs ->
  Forall
    (fun d =>
       c <= DestSegment.start d /\
       DestSegment.start d + DestSegment.length d
       <= c + Qsum (map (destLength_of sf tsl av) segs))
    (layout sf tsl av c segs).
Proof.
  intros Hall. revert c.
  induction Hall as [|s segs Hs Hall IH]; intros c; simpl; [constructor|].
  pose proof (Qsum_nonneg _ (proj2 (List.Forall_map _ _ _) Hall)) as Hrest.
  constructor.
  - simpl. rewrite Qsum_cons. split; lra.
  - eapply Forall_impl; [apply IH|]. simpl. intros d [H1 H2].
    rewrite Qsum_cons. split; lra.
Qed.

Lemma destLengths_nonneg (segs : list Segment.t) (S : Q) :
  Forall (fun s => 0 <= Segment.length s) segs -> 0 <= S ->
  Forall
    (fun s =>
       0 <= destLength_of (scaleFixed_of segs S)
              (totalScaleSourceLength_of segs)
              (availableScaleSpace_of segs S) s)
    segs.
Proof.
  intros Hall HS. eapply Forall_impl; [exact Hall|].
  intros s Hs. simpl. unfold destLength_of.
  destruct (Segment.isFixed s).
  - apply Qmult_le_0_compat; [exact Hs|].
    unfold scaleFixed_of.
    destruct (Qlt_bool S (totalFixed_of segs)) eqn:E; [|discriminate].
    apply Qlt_bool_iff in E. apply Qdiv_nonneg; lra.
  - destruct (Qeq_bool (totalScaleSourceLength_of segs) 0) eqn:E; [lra|].
    apply Qeq_bool_false in E. cbv zeta.
    assert (0 <= totalScaleSourceLength_of segs) as Htsl
      by (apply sum_lengths_nonneg, filter_Forall_keep, Hall).
    apply Qmult_le_0_compat.
    + apply Qdiv_nonneg; [exact Hs|lra].
    + unfold availableScaleSpace_of. apply Q.le_max_l.
Qed.

Lemma sum_dest_le_target (segs : list Segment.t) (S : Q) :
  0 <= S -> sum_dest_lengths (calculateDestinationSegments segs S) <= S.
Proof.
  intros HS. destruct (Qlt_le_dec S (totalFixed_of segs)) as [Hlt|Hle].
  - rewrite sum_dest_when_short; [lra|exact Hlt|lra].
  - rewrite (sum_dest_when_room _ _ Hle).
    destruct (Qeq_bool (totalScaleSourceLength_of segs) 0); lra.
Qed.

Lemma dest_within (segs : list Segment.t) (S : Q) :
  Forall (fun s => 0 <= Segment.length s) segs -> 0 <= S ->
  Forall (within S) (calculateDestinationSegments segs S).
Proof.
  intros Hall HS.
  pose proof (sum_dest_le_target segs S HS) as Hsum.
  rewrite sum_dest_lengths_Qsum, calculateDestinationSegments_lengths in Hsum.
  rewrite calculateDestinationSegments_layout.
  eapply Forall_impl;
    [apply layout_within, destLengths_nonneg; assumption|].
  intros d [H1 H2]. simpl in *. split; lra.
Qed.

(** X7: in exact arithmetic, with source lengths and a target that are not
    negative, every destination segment lies inside the target: it starts
    at 0 or later and ends at the target size or before.  (In the source
    the end of a segment can pass the target by a rounding error.) *)
Theorem calculateDestinationSegments_within
    (segs : list Segment.t) (S : Q) :
  Forall (fun s => 0 <= Segment.length s) segs -> 0 <= S ->
  Forall (within S) (calculateDestinationSegments segs S).
Proof.
  intros Hall HS.
  pose proof (sum_dest_le_target segs S HS) as Hsum.
  rewrite sum_dest_lengths_Qsum, calculateDestinationSegments_lengths in Hsum.
  rewrite calculateDestinationSegments_layout.
  eapply Forall_impl;
    [apply layout_within, destLengths_nonneg; assumption|].
  intros d [H1 H2]. simpl in *. split; lra.
Qed.

Lemma calculateDestinationSegments_within_witness :
  Forall (fun s => 0 <= Segment.length s) three_slice
  /\ 0 <= 100
  /\ Forall (within 100) (calculateDestinationSegments three_slice 100).
Proof.
  assert (Forall (fun s => 0 <= Segment.length s) three_slice) as Hall
    by (repeat constructor; discriminate).
  assert (0 <= 100) as HS by discriminate.
  split; [exact Hall|]. split; [exact HS|].
  exact (calculateDestinationSegments_within three_slice 100 Hall HS).
Defined.

End Within.

(** ** Dragging an axis handle *)

Section Drag.
Local Open Scope Q_scope.

Lemma drag_value_range (relative size : Q) :
  0 <= drag_value relative size /\ drag_value relative size <= 100.
Proof.
  unfold drag_value. split.
  - apply Q.le_max_l.
  - apply Q.max_lub; [discriminate|apply Q.le_min_l].
Qed.

Lemma max_min_swap (x : Q) : Qmax 0 (Qmin 100 x) == Qmin 100 (Qmax 0 x).
Proof.
  destruct (Qlt_le_dec x 0) as [H0|H0];
    destruct (Qlt_le_dec x 100) as [H1|H1]; try lra.
  - rewrite (Q.min_r 100 x), (Q.max_l 0 x), Q.min_r by lra.
    reflexivity.
  - rewrite (Q.min_r 100 x), (Q.max_r 0 x), Q.min_r by lra.
    reflexivity.
  - rewrite (Q.min_l 100 x), (Q.max_r 0 x), Q.min_l, Q.max_r by lra.
    reflexivity.
Qed.

(** X21: for a container of positive size the dragged axis lands under the
    pointer: in exact arithmetic (the source rounds the quotient and the
    two products, which moves the handle by a rounding error) the value
    set by the drag puts the handle, drawn at [value / 100 * size], where
    the pointer is while the pointer is over the container; whatever the
    rounding, the value is 0 when the pointer is before the container and
    100 when it is past it, and it is the value numeric entry of the same
    percentage would set. *)
Theorem drag_value_under_pointer (relative size : Q) :
  0 < size ->
  (0 <= relative -> relative <= size ->
   drag_value relative size / 100 * size == relative)
  /\ (relative <= 0 -> drag_value relative size == 0)
  /\ (size <= relative -> drag_value relative size == 100)
  /\ drag_value relative size
     == clamp_percent (Finite (relative / size * 100)).
Proof.
  intros Hsize. unfold drag_value.
  assert (forall a b : Q, a <= b -> a / size * 100 <= b / size * 100) as Hmono.
  { intros a b Hab. apply Qmult_le_compat_r; [|discriminate].
    unfold Qdiv. apply Qmult_le_compat_r; [exact Hab|].
    apply Qinv_le_0_compat. lra. }
  assert (0 / size * 100 == 0) as H0 by (field; lra).
  assert (size / size * 100 == 100) as H100 by (field; lra).
  split; [|split; [|split]].
  - intros Hlo Hhi.
    pose proof (Hmono _ _ Hlo) as H1. pose proof (Hmono _ _ Hhi) as H2.
    rewrite Q.min_r, Q.max_r by lra. field. lra.
  - intros Hlo. pose proof (Hmono _ _ Hlo) as H1.
    rewrite Q.min_r by lra. apply Q.max_l. lra.
  - intros Hhi. pose proof (Hmono _ _ Hhi) as H1.
    rewrite Q.min_l by lra. apply Q.max_r. discriminate.
  - simpl. apply max_min_swap.
Qed.

Lemma drag_value_under_pointer_witness :
  0 < 400 /\ drag_value 100 400 / 100 * 400 == 100.
Proof.
  assert (0 < 400) as Hsize by reflexivity.
  split; [exact Hsize|].
  apply (proj1 (drag_value_under_pointer 100 400 Hsize)); discriminate.
Defined.



End Drag.

(** ** The preview canvas *)

Section Canvas.
Local Open Scope Q_scope.

Lemma degenerate_false (sw sh dw dh : Q) :
  Qle_bool sw 0 || Qle_bool sh 0 || Qle_bool dw 0 || Qle_bool dh 0 = false
  <-> 0 < sw /\ 0 < sh /\ 0 < dw /\ 0 < dh.
Proof.
  rewrite !orb_false_iff, !Qle_bool_false. tauto.
Qed.

Lemma draw_cell_draws_something (m : TileMode) (xSrc ySrc : Segment.t)
    (xDst yDst : DestSegment.t) :
  Forall draws_something (draw_cell m xSrc ySrc xDst yDst).
Proof.
  unfold draw_cell.
  destruct (Qle_bool (Segment.length xSrc) 0 || Qle_bool (Segment.length ySrc) 0
            || Qle_bool (DestSegment.length xDst) 0
            || Qle_bool (DestSegment.length yDst) 0) eqn:E.
  { destruct m; constructor. }
  apply degenerate_false in E as (Hsw & Hsh & Hdw & Hdh).
  destruct m.
  - repeat constructor; simpl; assumption.
  - repeat constructor; simpl; assumption.
  - apply Forall_forall. intros op Hop.
    apply list_elem_of_join in Hop as (row & Hop & Hrow).
    apply list_elem_of_fmap in Hrow as (y & -> & _).
    apply list_elem_of_fmap in Hop as (x & -> & _).
    repeat split; simpl; assumption.
  - constructor.
Qed.

(** X23: every operation of the effect draws something: no [drawImage] has a
    source, a destination or a clip of zero or negative width or height;
    only the unclipped draws (stretch) resize the source, the clipped
    ones (fixed, repeat) copy it at its own size. *)
Theorem render_draws_something
    (width height : Q) (image : option (Q * Q)) (xAxes yAxes : list Axis)
    (tiles : TileMap) (rowScaling colScaling : list bool) :
  Forall draws_something
    (render width height image xAxes yAxes tiles rowScaling colScaling).
Proof.
  unfold render. destruct image as [[imageWidth imageHeight]|]; [|constructor].
  constructor; [exact I|].
  apply Forall_forall. intros op Hop.
  apply list_elem_of_join in Hop as (row & Hop & Hrow).
  apply elem_of_lookup_imap in Hrow as (rowIdx & yDst & -> & _).
  apply list_elem_of_join in Hop as (cell & Hop & Hcell).
  apply elem_of_lookup_imap in Hcell as (colIdx & xDst & -> & _).
  destruct (calculateSegments yAxes imageHeight rowScaling !! rowIdx)
    as [ySrc|]; [|inversion Hop].
  destruct (calculateSegments xAxes imageWidth colScaling !! colIdx)
    as [xSrc|]; [|inversion Hop].
  pose proof (draw_cell_draws_something
                (getEffectiveTileMode tiles rowIdx colIdx) xSrc ySrc xDst yDst)
    as Hall.
  rewrite Forall_forall in Hall. apply Hall, Hop.
Qed.

(** The effect reads a source segment for every destination segment: the
    two arrays of a dimension have the same positions. *)
Lemma render_reads_source
    (axes : list Axis) (imageSize size : Q) (scaling : list bool) (idx : nat) :
  is_Some
    (calculateDestinationSegments
       (calculateSegments axes imageSize scaling) size !! idx)
  <-> is_Some (calculateSegments axes imageSize scaling !! idx).
Proof.
  rewrite !lookup_lt_is_Some, calculateDestinationSegments_length.
  reflexivity.
Qed.

End Canvas.

Section CanvasCells.
Local Open Scope Q_scope.

Lemma counter_values_elem (x n : Z) :
  x ∈ counter_values n <-> (0 <= x < n)%Z.
Proof.
  unfold counter_values. rewrite list_elem_of_fmap. split.
  - intros (k & -> & Hk). apply elem_of_seq in Hk. lia.
  - intros Hx. exists (Z.to_nat x). split; [lia|].
    apply elem_of_seq. lia.
Qed.

Lemma counter_values_length (n : Z) :
  List.length (counter_values n) = Z.to_nat n.
Proof. unfold counter_values. rewrite length_map. apply length_seq. Qed.

Lemma grid_length {A B C : Type} (f : A -> B -> C) (xs : list B) (ys : list A) :
  List.length (mjoin (map (fun y => map (f y) xs) ys))
  = (List.length xs * List.length ys)%nat.
Proof.
  induction ys as [|y ys IH]; simpl; [lia|].
  rewrite length_app, length_map, IH. lia.
Qed.

Lemma Qceiling_pos (q : Q) : 0 < q -> (0 < Qceiling q)%Z.
Proof.
  intros Hq. rewrite Zlt_Qlt.
  pose proof (Qle_ceiling q) as Hc.
  change (0 < inject_Z (Qceiling q)). lra.
Qed.

Lemma repeat_origin (d s : Q) (x : Z) :
  0 < s -> (0 <= x < Qceiling (d / s))%Z ->
  0 <= inject_Z x * s /\ inject_Z x * s < d.
Proof.
  intros Hs [Hx0 Hxn].
  assert (0 <= inject_Z x) as H0 by (rewrite Zle_Qle in Hx0; exact Hx0).
  split; [apply Qmult_le_0_compat; lra|].
  assert (inject_Z x <= inject_Z (Qceiling (d / s) - 1)) as Hle
    by (rewrite <- Zle_Qle; lia).
  pose proof (Qceiling_lt (d / s)) as Hlt.
  assert (inject_Z x < d / s) as Hxd by lra.
  assert (inject_Z x * s < d / s * s) as H
    by (apply Qmult_lt_compat_r; assumption).
  assert (d / s * s == d) as Heq by (field; lra).
  lra.
Qed.

Lemma repeat_cover (d s p : Q) :
  0 < s -> 0 <= p -> p < d ->
  exists x : Z,
    (0 <= x < Qceiling (d / s))%Z /\
    inject_Z x * s <= p /\ p < inject_Z x * s + s.
Proof.
  intros Hs Hp0 Hpd. exists (Qfloor (p / s)).
  assert (0 < / s) as Hinv by (apply Qinv_lt_0_compat; exact Hs).
  assert (0 <= p / s) as Hps
    by (unfold Qdiv; apply Qmult_le_0_compat; lra).
  assert (p / s < d / s) as Hlt
    by (unfold Qdiv; apply Qmult_lt_compat_r; assumption).
  pose proof (Qfloor_le (p / s)) as Hfl.
  pose proof (Qlt_floor (p / s)) as Hfu.
  pose proof (Qle_ceiling (d / s)) as Hc.
  rewrite inject_Z_plus in Hfu.
  assert (p / s * s == p) as Heq by (field; lra).
  split; [split|split].
  - pose proof (Qfloor_resp_le 0 (p / s) Hps) as H. simpl in H. exact H.
  - rewrite Zlt_Qlt. lra.
  - assert (inject_Z (Qfloor (p / s)) * s <= p / s * s) as H
      by (apply Qmult_le_compat_r; lra).
    lra.
  - assert (p / s * s < (inject_Z (Qfloor (p / s)) + inject_Z 1) * s) as H
      by (apply Qmult_lt_compat_r; assumption).
    assert (inject_Z 1 == 1) as H1 by reflexivity.
    rewrite H1 in H. lra.
Qed.

Lemma draw_cell_drawable (m : TileMode) (xSrc ySrc : Segment.t)
    (xDst yDst : DestSegment.t) :
  drawable xSrc ySrc xDst yDst ->
  Qle_bool (Segment.length xSrc) 0 || Qle_bool (Segment.length ySrc) 0
  || Qle_bool (DestSegment.length xDst) 0
  || Qle_bool (DestSegment.length yDst) 0 = false.
Proof. intros H. apply degenerate_false, H. Qed.

(** X24: in repeat mode a cell of positive size is drawn with
    [ceil(dw / sw) * ceil(dh / sh)] copies of the source piece, each at
    the size of the piece and clipped to the cell; in exact arithmetic
    every copy starts inside the cell, and together they cover it.  (The
    source rounds [dw / sw] before [Math.ceil] and rounds the corners
    [dx + x * sw]: a last copy can start on the far edge of the cell, and
    neighbouring copies can miss each other by a rounding error.) *)
Theorem draw_cell_repeat (xSrc ySrc : Segment.t) (xDst yDst : DestSegment.t) :
  drawable xSrc ySrc xDst yDst ->
  List.length (draw_cell Repeat xSrc ySrc xDst yDst)
  = (Z.to_nat (Qceiling (DestSegment.length xDst / Segment.length xSrc))
     * Z.to_nat (Qceiling (DestSegment.length yDst / Segment.length ySrc)))%nat
  /\ tiles_cell (source_of xSrc ySrc) (cell_of xDst yDst)
       (draw_cell Repeat xSrc ySrc xDst yDst).
Proof.
  intros Hd. pose proof Hd as (Hsw & Hsh & Hdw & Hdh).
  unfold draw_cell. rewrite (draw_cell_drawable Repeat _ _ _ _ Hd). cbv zeta.
  split; [|split].
  - rewrite grid_length, !counter_values_length. reflexivity.
  - intros op Hop.
    apply list_elem_of_join in Hop as (row & Hop & Hrow).
    apply list_elem_of_fmap in Hrow as (y & -> & Hy).
    apply list_elem_of_fmap in Hop as (x & -> & Hx).
    apply counter_values_elem in Hx, Hy.
    destruct (repeat_origin _ _ x Hsw Hx) as [Hx0 Hx1].
    destruct (repeat_origin _ _ y Hsh Hy) as [Hy0 Hy1].
    eexists. split; [reflexivity|]. simpl.
    split; [reflexivity|]. split; [reflexivity|].
    unfold in_rect. simpl. repeat split; lra.
  - intros px py (Hx0 & Hx1 & Hy0 & Hy1). simpl in *.
    destruct (repeat_cover (DestSegment.length xDst) (Segment.length xSrc)
                (px - DestSegment.start xDst)) as (x & Hx & Hxl & Hxu);
      [exact Hsw|lra|lra|].
    destruct (repeat_cover (DestSegment.length yDst) (Segment.length ySrc)
                (py - DestSegment.start yDst)) as (y & Hy & Hyl & Hyu);
      [exact Hsh|lra|lra|].
    apply counter_values_elem in Hx, Hy.
    exists (Build_Rect
              (DestSegment.start xDst + inject_Z x * Segment.length xSrc)
              (DestSegment.start yDst + inject_Z y * Segment.length ySrc)
              (Segment.length xSrc) (Segment.length ySrc)).
    split.
    + apply list_elem_of_join. eexists. split.
      * apply (list_elem_of_fmap_2
                 (fun x =>
                    DrawImage (Some (cell_of xDst yDst)) (source_of xSrc ySrc)
                      (Build_Rect
                         (DestSegment.start xDst
                          + inject_Z x * Segment.length xSrc)
                         (DestSegment.start yDst
                          + inject_Z y * Segment.length ySrc)
                         (Segment.length xSrc) (Segment.length ySrc)))
                 _ x Hx).
      * apply (list_elem_of_fmap_2
                 (fun y =>
                    map
                      (fun x =>
                         DrawImage (Some (cell_of xDst yDst))
                           (source_of xSrc ySrc)
                           (Build_Rect
                              (DestSegment.start xDst
                               + inject_Z x * Segment.length xSrc)
                              (DestSegment.start yDst
                               + inject_Z y * Segment.length ySrc)
                              (Segment.length xSrc) (Segment.length ySrc)))
                      (counter_values
                         (Qceiling
                            (DestSegment.length xDst / Segment.length xSrc))))
                 _ y Hy).
    + unfold in_rect. simpl. repeat split; lra.
Qed.

Lemma draw_cell_repeat_witness :
  drawable tile20 tile20 cell45 cell30
  /\ List.length (draw_cell Repeat tile20 tile20 cell45 cell30) = 6%nat.
Proof.
  assert (drawable tile20 tile20 cell45 cell30) as Hd
    by (repeat split).
  split; [exact Hd|].
  rewrite (proj1 (draw_cell_repeat tile20 tile20 cell45 cell30 Hd)).
  reflexivity.
Defined.

(** X25: a cell is left undrawn exactly when its mode is hidden or one of the
    four lengths (source and destination, width and height) is zero or
    negative. *)
Theorem draw_cell_nothing (m : TileMode) (xSrc ySrc : Segment.t)
    (xDst yDst : DestSegment.t) :
  draw_cell m xSrc ySrc xDst yDst = []
  <-> m = Hidden \/ ~ drawable xSrc ySrc xDst yDst.
Proof.
  split.
  - intros Hnil.
    pose proof (f_equal List.length Hnil) as Hlen.
    destruct m; [right|right|right|left; reflexivity]; intros Hd.
    + unfold draw_cell in Hlen.
      rewrite (draw_cell_drawable Fixed _ _ _ _ Hd) in Hlen. discriminate.
    + unfold draw_cell in Hlen.
      rewrite (draw_cell_drawable Stretch _ _ _ _ Hd) in Hlen. discriminate.
    + pose proof Hd as (Hsw & Hsh & Hdw & Hdh).
      unfold draw_cell in Hlen.
      rewrite (draw_cell_drawable Repeat _ _ _ _ Hd) in Hlen. cbv zeta in Hlen.
      rewrite grid_length, !counter_values_length in Hlen. simpl in Hlen.
      assert (0 < DestSegment.length xDst / Segment.length xSrc) as Hx
        by (apply Qlt_shift_div_l; lra).
      assert (0 < DestSegment.length yDst / Segment.length ySrc) as Hy
        by (apply Qlt_shift_div_l; lra).
      apply Qceiling_pos in Hx, Hy. nia.
  - intros [->|Hnd]; [reflexivity|].
    unfold draw_cell.
    destruct (Qle_bool (Segment.length xSrc) 0
              || Qle_bool (Segment.length ySrc) 0
              || Qle_bool (DestSegment.length xDst) 0
              || Qle_bool (DestSegment.length yDst) 0) eqn:E.
    + destruct m; reflexivity.
    + apply degenerate_false in E. contradiction.
Qed.

(** X26: in fixed mode a cell of positive size is drawn with one copy of the
    source piece at its own size, clipped to the cell, whose centre is, in
    exact arithmetic, the centre of the cell (in the source, up to the
    rounding of [dx + (dw - sw) / 2]); in stretch mode with one unclipped
    draw of the source piece onto the cell. *)
Theorem draw_cell_fixed_stretch (xSrc ySrc : Segment.t) (xDst yDst : DestSegment.t) :
  drawable xSrc ySrc xDst yDst ->
  (exists dst : Rect,
      draw_cell Fixed xSrc ySrc xDst yDst
      = [ DrawImage (Some (cell_of xDst yDst)) (source_of xSrc ySrc) dst ]
      /\ rect_w dst = Segment.length xSrc
      /\ rect_h dst = Segment.length ySrc
      /\ rect_x dst + rect_w dst / 2
         == DestSegment.start xDst + DestSegment.length xDst / 2
      /\ rect_y dst + rect_h dst / 2
         == DestSegment.start yDst + DestSegment.length yDst / 2)
  /\ draw_cell Stretch xSrc ySrc xDst yDst
     = [ DrawImage None (source_of xSrc ySrc) (cell_of xDst yDst) ].
Proof.
  intros Hd. unfold draw_cell.
  rewrite (draw_cell_drawable Fixed _ _ _ _ Hd). cbv zeta. split.
  - eexists. split; [reflexivity|]. simpl.
    split; [reflexivity|]. split; [reflexivity|]. split; field.
  - reflexivity.
Qed.

Lemma draw_cell_fixed_stretch_witness :
  drawable tile20 tile20 cell45 cell30
  /\ draw_cell Stretch tile20 tile20 cell45 cell30
     = [ DrawImage None (source_of tile20 tile20) (cell_of cell45 cell30) ].
Proof.
  assert (drawable tile20 tile20 cell45 cell30) as Hd
    by (repeat split).
  split; [exact Hd|].
  exact (proj2 (draw_cell_fixed_stretch tile20 tile20 cell45 cell30 Hd)).
Defined.

End CanvasCells.

Section CanvasWhole.
Local Open Scope Q_scope.

Lemma render_elem (width height imageWidth imageHeight : Q)
    (xAxes yAxes : list Axis) (tiles : TileMap)
    (rowScaling colScaling : list bool) (op : CanvasOp) :
  op ∈ render width height (Some (imageWidth, imageHeight)) xAxes yAxes tiles
         rowScaling colScaling ->
  op = ClearRect (Build_Rect 0 0 width height)
  \/ exists (rowIdx colIdx : nat) (xSrc ySrc : Segment.t)
       (xDst yDst : DestSegment.t),
       calculateSegments xAxes imageWidth colScaling !! colIdx = Some xSrc /\
       calculateSegments yAxes imageHeight rowScaling !! rowIdx = Some ySrc /\
       calculateDestinationSegments
         (calculateSegments xAxes imageWidth colScaling) width !! colIdx
       = Some xDst /\
       calculateDestinationSegments
         (calculateSegments yAxes imageHeight rowScaling) height !! rowIdx
       = Some yDst /\
       op ∈ draw_cell (getEffectiveTileMode tiles rowIdx colIdx)
              xSrc ySrc xDst yDst.
Proof.
  unfold render. intros Hop.
  apply elem_of_cons in Hop as [->|Hop]; [left; reflexivity|]. right.
  apply list_elem_of_join in Hop as (row & Hop & Hrow).
  apply elem_of_lookup_imap in Hrow as (rowIdx & yDst & -> & HyDst).
  apply list_elem_of_join in Hop as (cell & Hop & Hcell).
  apply elem_of_lookup_imap in Hcell as (colIdx & xDst & -> & HxDst).
  destruct (calculateSegments yAxes imageHeight rowScaling !! rowIdx)
    as [ySrc|] eqn:Ey; [|inversion Hop].
  destruct (calculateSegments xAxes imageWidth colScaling !! colIdx)
    as [xSrc|] eqn:Ex; [|inversion Hop].
  exists rowIdx, colIdx, xSrc, ySrc, xDst, yDst. auto.
Qed.

Lemma draw_cell_paints (m : TileMode) (xSrc ySrc : Segment.t)
    (xDst yDst : DestSegment.t) (op : CanvasOp) :
  op ∈ draw_cell m xSrc ySrc xDst yDst ->
  exists (clip : option Rect) (dst : Rect),
    op = DrawImage clip (source_of xSrc ySrc) dst /\
    match clip with
    | Some r => r = cell_of xDst yDst
    | None => dst = cell_of xDst yDst
    end.
Proof.
  unfold draw_cell.
  destruct (Qle_bool (Segment.length xSrc) 0 || Qle_bool (Segment.length ySrc) 0
            || Qle_bool (DestSegment.length xDst) 0
            || Qle_bool (DestSegment.length yDst) 0).
  { destruct m; intros H; inversion H. }
  destruct m; intros Hop.
  - apply list_elem_of_singleton in Hop as ->.
    eexists (Some _), _. split; reflexivity.
  - apply list_elem_of_singleton in Hop as ->.
    exists None. eexists. split; reflexivity.
  - apply list_elem_of_join in Hop as (row & Hop & Hrow).
    apply list_elem_of_fmap in Hrow as (y & -> & _).
    apply list_elem_of_fmap in Hop as (x & -> & _).
    eexists (Some _), _. split; reflexivity.
  - inversion Hop.
Qed.


Lemma calculateSegments_nonneg (axes : list Axis) (T : Q) (scaling : list bool) :
  Forall (fun s => 0 <= Segment.length s) (calculateSegments axes T scaling).
Proof.
  rewrite calculateSegments_walk.
  eapply Forall_impl; [apply walk_positive|]. intros s Hs. simpl in Hs. lra.
Qed.

(** X27: in exact arithmetic, on a canvas whose width and height are not
    negative nothing is painted outside the canvas: every unclipped draw
    has its destination on the canvas and every clipped draw has its clip
    on the canvas.  (In the source the far edge of the last cell can pass
    the edge of the canvas by a rounding error.) *)
Theorem render_on_canvas
    (width height : Q) (image : option (Q * Q)) (xAxes yAxes : list Axis)
    (tiles : TileMap) (rowScaling colScaling : list bool) :
  0 <= width -> 0 <= height ->
  Forall (paints_on_canvas width height)
    (render width height image xAxes yAxes tiles rowScaling colScaling).
Proof.
  intros Hw Hh. destruct image as [[imageWidth imageHeight]|]; [|constructor].
  apply Forall_forall. intros op Hop.
  apply render_elem in Hop
    as [->|(rowIdx & colIdx & xSrc & ySrc & xDst & yDst
             & _ & _ & HxDst & HyDst & Hop)]; [reflexivity|].
  pose proof (dest_within _ width
                (calculateSegments_nonneg xAxes imageWidth colScaling) Hw)
    as Hx.
  pose proof (dest_within _ height
                (calculateSegments_nonneg yAxes imageHeight rowScaling) Hh)
    as Hy.
  rewrite Forall_forall in Hx, Hy.
  destruct (Hx xDst) as [Hx0 Hx1]; [apply list_elem_of_lookup; eauto|].
  destruct (Hy yDst) as [Hy0 Hy1]; [apply list_elem_of_lookup; eauto|].
  apply draw_cell_paints in Hop as (clip & dst & -> & Hclip).
  destruct clip as [r|]; subst; simpl; unfold on_canvas; simpl; tauto.
Qed.

Lemma render_on_canvas_witness :
  0 <= 200 /\ 0 <= 100
  /\ Forall (paints_on_canvas 200 100)
       (render 200 100 (Some (400, 400))
          (AppState.xAxes one_hidden_tile) (AppState.yAxes one_hidden_tile)
          (AppState.tiles one_hidden_tile)
          (AppState.rowScaling one_hidden_tile)
          (AppState.colScaling one_hidden_tile)).
Proof.
  assert (0 <= 200) as Hw by discriminate.
  assert (0 <= 100) as Hh by discriminate.
  split; [exact Hw|]. split; [exact Hh|].
  exact (render_on_canvas 200 100 _ _ _ _ _ _ Hw Hh).
Defined.








End CanvasWhole.

(** ** The state of the editor under its controls *)

Section Editor.
Local Open Scope Q_scope.

Lemma count_id_absent (i : string) (axes : list Axis) :
  count_id i axes = 0%nat <-> i ∉ map id axes.
Proof.
  unfold count_id. induction axes as [|a axes IH]; simpl.
  - split; [intros _ H; inversion H|reflexivity].
  - rewrite not_elem_of_cons.
    destruct (String.eqb_spec (id a) i) as [Heq|Hne]; simpl.
    + split; [discriminate|]. intros [Hne _]. congruence.
    + rewrite IH. split; [intros H; split; [congruence|exact H]|tauto].
Qed.

Lemma count_id_unique (i : string) (axes : list Axis) :
  NoDup (map id axes) -> i ∈ map id axes -> count_id i axes = 1%nat.
Proof.
  induction axes as [|a axes IH]; simpl; intros Hnd Hin; [inversion Hin|].
  apply NoDup_cons in Hnd as [Hnotin Hnd].
  unfold count_id in *. simpl.
  destruct (String.eqb_spec (id a) i) as [Heq|Hne]; simpl.
  - f_equal. apply (count_id_absent i axes). rewrite <- Heq. exact Hnotin.
  - apply elem_of_cons in Hin as [Hin|Hin]; [congruence|]. apply IH; assumption.
Qed.

Lemma remove_axis_ids (i : string) (axes : list Axis) (j : string) :
  j ∈ map id (remove_axis i axes) -> j ∈ map id axes /\ j <> i.
Proof.
  unfold remove_axis. induction axes as [|a axes IH]; simpl;
    [intros H; inversion H|].
  destruct (String.eqb_spec (id a) i) as [Heq|Hne]; simpl.
  - intros H. destruct (IH H). split; [right; assumption|assumption].
  - intros H. apply elem_of_cons in H as [->|H].
    + split; [left|exact Hne].
    + destruct (IH H). split; [right; assumption|assumption].
Qed.

Lemma remove_axis_keeps (i : string) (axes : list Axis) (j : string) :
  j ∈ map id axes -> j <> i -> j ∈ map id (remove_axis i axes).
Proof.
  unfold remove_axis. induction axes as [|a axes IH]; simpl;
    [intros H; inversion H|].
  intros Hin Hne. destruct (String.eqb_spec (id a) i) as [Heq|Hne']; simpl.
  - apply elem_of_cons in Hin as [->|Hin]; [contradiction|]. apply IH; assumption.
  - apply elem_of_cons in Hin as [->|Hin]; [left|right; apply IH; assumption].
Qed.

Lemma remove_axis_NoDup (i : string) (axes : list Axis) :
  NoDup (map id axes) -> NoDup (map id (remove_axis i axes)).
Proof.
  induction axes as [|a axes IH]; simpl; intros Hnd; [constructor|].
  apply NoDup_cons in Hnd as [Hnotin Hnd].
  unfold remove_axis in *. simpl.
  destruct (String.eqb (id a) i); simpl; [apply IH, Hnd|].
  apply NoDup_cons. split; [|apply IH, Hnd].
  intros Hin. apply remove_axis_ids in Hin as [Hin _]. contradiction.
Qed.

Lemma remove_axis_percent (i : string) (axes : list Axis) :
  Forall percent axes -> Forall percent (remove_axis i axes).
Proof. apply filter_Forall_keep. Qed.

Lemma set_axis_value_ids (i : string) (v : Q) (axes : list Axis) :
  map id (set_axis_value i v axes) = map id axes.
Proof.
  unfold set_axis_value. rewrite map_map.
  apply map_ext. intros a. destruct (String.eqb (id a) i); reflexivity.
Qed.

Lemma toggle_flag_length (i : nat) (sc sc' : list bool) :
  (i < List.length sc)%nat -> toggle_flag i sc = Some sc' ->
  List.length sc' = List.length sc.
Proof.
  intros Hi. unfold toggle_flag.
  destruct (lookup_lt_is_Some_2 sc i Hi) as [b ->].
  intros [= <-]. apply length_insert.
Qed.

Lemma editor_invariant_initial : editor_invariant initial_state.
Proof.
  split; [split; repeat constructor; simpl; discriminate|].
  split; [split; reflexivity|].
  split; [|split].
  - simpl. apply NoDup_cons. split; [|apply NoDup_singleton].
    intros H. apply list_elem_of_singleton in H. discriminate.
  - simpl. apply NoDup_cons. split; [|apply NoDup_singleton].
    intros H. apply list_elem_of_singleton in H. discriminate.
  - intros i type H. discriminate H.
Qed.

Lemma editor_invariant_step (st st' : AppState.t) :
  editor_invariant st -> ui_step st st' -> editor_invariant st'.
Proof.
  intros (Hrange & Hsync & Hndx & Hndy & Hsel) Hstep.
  destruct Hstep as
    [now type st Hfresh | i type st Hselected | i type val st Hselected
    | a type st Ha | dragging rect cx cy w h st Hw Hh
    | r st st' Hr Htog | c st st' Hc Htog | r c m st].
  - (* add *)
    apply count_id_absent in Hfresh.
    destruct Hrange as [Hx Hy].
    assert (Forall percent [ {| id := new_axis_id now type; value := 50 |} ])
      as H50 by (repeat constructor; discriminate).
    assert (forall l : list Axis,
               NoDup (map id l) -> new_axis_id now type ∉ map id l ->
               NoDup (map id
                        (l ++ [ {| id := new_axis_id now type; value := 50 |} ])))
      as Hnd.
    { intros l Hl Hnotin. rewrite map_app. apply NoDup_app.
      split; [exact Hl|]. split; [|apply NoDup_singleton].
      intros x Hx' Hin. apply list_elem_of_singleton in Hin. subst x.
      contradiction. }
    assert (forall l : list Axis,
               new_axis_id now type
               ∈ map id (l ++ [ {| id := new_axis_id now type; value := 50 |} ]))
      as Hnew.
    { intros l. rewrite map_app. apply elem_of_app. right.
      apply list_elem_of_singleton. reflexivity. }
    split; [|split; [apply handleAddAxis_sync, Hsync|]].
    { destruct type; split; simpl; try assumption;
        apply Forall_app; split; assumption. }
    destruct type; simpl in *.
    + split; [apply Hnd; assumption|]. split; [exact Hndy|].
      intros j t [= <- <-]. apply Hnew.
    + split; [exact Hndx|]. split; [apply Hnd; assumption|].
      intros j t [= <- <-]. apply Hnew.
  - (* delete *)
    pose proof (Hsel i type Hselected) as Hin.
    assert (count_id i (axes_of type st) = 1%nat) as Hcount
      by (destruct type; apply count_id_unique; assumption).
    destruct Hrange as [Hx Hy].
    split; [|split; [apply handleDeleteAxis_sync; assumption|]].
    { destruct type; split; simpl; try assumption;
        apply remove_axis_percent; assumption. }
    split; [|split].
    + destruct type; simpl; try assumption. apply remove_axis_NoDup, Hndx.
    + destruct type; simpl; try assumption. apply remove_axis_NoDup, Hndy.
    + intros j t Hj.
      assert (AppState.selectedAxis (handleDeleteAxis i type st)
              = None) as Hnone.
      { destruct type; simpl; rewrite Hselected, String.eqb_refl; reflexivity. }
      congruence.
  - (* numeric entry *)
    destruct Hsync as [Hc Hr]. destruct Hrange as [Hx Hy].
    pose proof (clamp_percent_range val) as Hclamp.
    destruct val, type; simpl;
      repeat split; simpl;
      rewrite ?set_axis_value_ids, ?length_map; try assumption;
      try (apply set_axis_value_percent; assumption);
      try (unfold set_axis_value; rewrite length_map; assumption);
      intros j t Hj; specialize (Hsel j t Hj); destruct t; simpl in *;
      rewrite ?set_axis_value_ids; assumption.
  - (* select *)
    split; [exact Hrange|]. split; [exact Hsync|].
    split; [exact Hndx|]. split; [exact Hndy|].
    intros j t. simpl.
    destruct (String.eqb (id a) ""); [discriminate|].
    intros [= <- <-]. apply list_elem_of_fmap_2, Ha.
  - (* drag *)
    destruct Hsync as [Hc Hr]. destruct Hrange as [Hx Hy].
    pose proof (drag_value_range (cx - fst (default (0, 0) rect)) w) as Hdx.
    pose proof (drag_value_range (cy - snd (default (0, 0) rect)) h) as Hdy.
    destruct dragging as [[i [|]]|], rect as [[rectLeft rectTop]|]; simpl in *;
      repeat split; simpl;
      rewrite ?set_axis_value_ids; try assumption;
      try (apply set_axis_value_percent; assumption);
      try (unfold set_axis_value; rewrite length_map; assumption);
      intros j t Hj; specialize (Hsel j t Hj); destruct t; simpl in *;
      rewrite ?set_axis_value_ids; assumption.
  - (* toggle row *)
    unfold toggleRowScaling in Htog.
    destruct (toggle_flag r (AppState.rowScaling st)) as [sc'|] eqn:E;
      [|discriminate].
    injection Htog as <-. destruct Hsync as [Hc Hrow].
    apply toggle_flag_length in E; [|lia].
    split; [exact Hrange|]. split; [split; simpl; [exact Hc|lia]|].
    split; [exact Hndx|]. split; [exact Hndy|exact Hsel].
  - (* toggle column *)
    unfold toggleColScaling in Htog.
    destruct (toggle_flag c (AppState.colScaling st)) as [sc'|] eqn:E;
      [|discriminate].
    injection Htog as <-. destruct Hsync as [Hcol Hr].
    apply toggle_flag_length in E; [|lia].
    split; [exact Hrange|]. split; [split; simpl; [lia|exact Hr]|].
    split; [exact Hndx|]. split; [exact Hndy|exact Hsel].
  - (* tile mode *)
    split; [exact Hrange|]. split; [exact Hsync|].
    split; [exact Hndx|]. split; [exact Hndy|exact Hsel].
Qed.

(** X29: however the editor is used through its controls from its initial
    state, without loading a document, every axis value stays in
    [0,100], there is one scaling flag per segment in both dimensions,
    no two axes of a dimension share an identifier, and the selected
    axis exists. *)
Theorem editor_invariant_reachable (st : AppState.t) :
  rtc ui_step initial_state st -> editor_invariant st.
Proof.
  intros Hreach. pose proof editor_invariant_initial as Hinv.
  induction Hreach as [st|st st1 st2 Hstep Hreach IH]; [exact Hinv|].
  apply IH. eapply editor_invariant_step; eassumption.
Qed.

Lemma editor_invariant_reachable_witness :
  rtc ui_step initial_state
    (handleDeleteAxis "x1" AxisX
       (onSelectAxis (Some "x1") (Some AxisX) initial_state))
  /\ editor_invariant
       (handleDeleteAxis "x1" AxisX
          (onSelectAxis (Some "x1") (Some AxisX) initial_state)).
Proof.
  assert (rtc ui_step initial_state
            (handleDeleteAxis "x1" AxisX
               (onSelectAxis (Some "x1") (Some AxisX) initial_state)))
    as Hreach.
  { eapply rtc_l; [|apply rtc_once].
    - apply (ui_select (ax "x1" 33) AxisX initial_state).
      simpl. left.
    - apply ui_delete. reflexivity. }
  split; [exact Hreach|].
  exact (editor_invariant_reachable _ Hreach).
Defined.

End Editor.

(** ** A dimension whose segments all scale *)

Section AllScalable.
Local Open Scope Q_scope.

Lemma layout_scaled (sf tsl av k c c' e : Q) (segs : list Segment.t) :
  chain c segs e -> c' == k * c ->
  Forall (fun s => destLength_of sf tsl av s == k * Segment.length s) segs ->
  Forall2 (scaled_by k) segs (layout sf tsl av c' segs).
Proof.
  revert c c'. induction segs as [|s segs IH]; intros c c' Hch Hc Hall; simpl.
  - constructor.
  - destruct Hch as [Hstart Hrest]. inversion Hall as [|? ? Hs Hall']; subst.
    constructor.
    + unfold scaled_by. simpl. split; [rewrite Hstart; exact Hc|exact Hs].
    + eapply IH; [exact Hrest| |exact Hall'].
      cbv zeta. rewrite Hs, Hc, Hstart. ring.
Qed.

(** X11: in exact arithmetic, when every segment of a partition is scalable,
    the layout for a target [S >= 0] is the partition scaled by [S / T]
    from the origin: starts and lengths are all multiplied by the same
    factor.  (The source computes [(length / T') * S] with the sum [T'] of
    the lengths, which is [length * (S / T)] up to rounding.) *)
Theorem all_scalable_uniform
    (axes : list Axis) (T S : Q) (scalingArray : list bool) :
  0 < T -> Forall percent axes -> 0 <= S ->
  Forall (fun s => Segment.isFixed s = false)
    (calculateSegments axes T scalingArray) ->
  Forall2 (scaled_by (S / T))
    (calculateSegments axes T scalingArray)
    (calculateDestinationSegments (calculateSegments axes T scalingArray) S).
Proof.
  intros HT Hall HS Hscal.
  set (segs := calculateSegments axes T scalingArray) in *.
  assert (chain 0 segs T) as Hch.
  { unfold segs. rewrite calculateSegments_walk.
    pose proof (walk_chain scalingArray 0 0 _
                  (boundaries_ascending axes T (Qlt_le_weak _ _ HT) Hall)) as H.
    unfold boundaries_of in H at 2. rewrite last_last in H. exact H. }
  assert (sum_lengths segs == T) as Hsum
    by (rewrite (chain_sum _ _ _ Hch); lra).
  assert (totalFixed_of segs == 0) as Htf.
  { unfold totalFixed_of. rewrite (no_fixed_filter _ Hscal).
    unfold sum_lengths. simpl. reflexivity. }
  pose proof (sum_lengths_split segs) as Hsplit.
  assert (totalScaleSourceLength_of segs == T) as Htsl by lra.
  assert (~ totalScaleSourceLength_of segs == 0) as Hne by lra.
  assert (availableScaleSpace_of segs S == S) as Hav.
  { unfold availableScaleSpace_of. rewrite Q.max_r; lra. }
  rewrite calculateDestinationSegments_layout.
  eapply layout_scaled; [exact Hch|ring|].
  apply Forall_forall. intros s Hin.
  rewrite Forall_forall in Hscal.
  unfold destLength_of. rewrite (Hscal s Hin).
  apply Qeq_bool_false in Hne as E. rewrite E. cbv zeta.
  rewrite Hav, Htsl. field. lra.
Qed.

Lemma all_scalable_uniform_witness :
  0 < 400 /\ Forall percent [ax "x1" 25] /\ 0 <= 200
  /\ Forall (fun s => Segment.isFixed s = false) two_scalable
  /\ Forall2 (scaled_by (200 / 400)) two_scalable
       (calculateDestinationSegments two_scalable 200).
Proof.
  assert (0 < 400) as HT by reflexivity.
  assert (Forall percent [ax "x1" 25]) as Hall
    by (repeat constructor; simpl; discriminate).
  assert (0 <= 200) as HS by discriminate.
  assert (Forall (fun s => Segment.isFixed s = false) two_scalable) as Hscal
    by (repeat constructor).
  split; [exact HT|]. split; [exact Hall|]. split; [exact HS|].
  split; [exact Hscal|].
  exact (all_scalable_uniform [ax "x1" 25] 400 200 [true; true]
           HT Hall HS Hscal).
Defined.

End AllScalable.

(** ** The number of exported tiles *)

Section ExportSize.

Lemma grid_entries_elem (tiles : TileMap) (R C : nat) (key : string)
    (cfg : TileConfig) :
  (key, cfg) ∈ grid_entries tiles R C <->
  exists r c : nat,
    r < R /\ c < C /\ key = tile_key r c
    /\ cfg = {| mode := getEffectiveTileMode tiles r c |}.
Proof.
  unfold grid_entries. rewrite list_elem_of_bind. split.
  - intros (r & Hin & Hr). apply list_elem_of_bind in Hin as (c & Hin & Hc).
    apply list_elem_of_singleton in Hin. injection Hin as -> ->.
    apply elem_of_seq in Hr, Hc. exists r, c. repeat split; lia.
  - intros (r & c & Hr & Hc & -> & ->). exists r. split.
    + apply list_elem_of_bind. exists c. split.
      * apply list_elem_of_singleton. reflexivity.
      * apply elem_of_seq. lia.
    + apply elem_of_seq. lia.
Qed.

Lemma bind_length_const {A B : Type} (f : A -> list B) (k : nat) (l : list A) :
  (forall x : A, List.length (f x) = k) ->
  List.length (l ≫= f) = List.length l * k.
Proof.
  intros Hf. induction l as [|x l IH]; [reflexivity|].
  rewrite bind_cons, length_app, Hf, IH. reflexivity.
Qed.

Lemma grid_entries_length (tiles : TileMap) (R C : nat) :
  List.length (grid_entries tiles R C) = R * C.
Proof.
  unfold grid_entries.
  rewrite (bind_length_const _ C), length_seq; [reflexivity|].
  intros r. rewrite (bind_length_const _ 1), length_seq; [lia|].
  intros c. reflexivity.
Qed.

Lemma NoDup_bind_keys (tiles : TileMap) (R C : nat) :
  NoDup (map fst (grid_entries tiles R C)).
Proof.
  apply NoDup_fmap_fst.
  - intros key cfg cfg' H1 H2.
    apply grid_entries_elem in H1 as (r & c & _ & _ & -> & ->).
    apply grid_entries_elem in H2 as (r' & c' & _ & _ & Hkey & ->).
    apply tile_key_inj in Hkey as [<- <-]. reflexivity.
  - unfold grid_entries.
    apply NoDup_bind.
    + intros r r' kv Hr Hr' Hin Hin'.
      apply list_elem_of_bind in Hin as (c & Hin & _).
      apply list_elem_of_bind in Hin' as (c' & Hin' & _).
      apply list_elem_of_singleton in Hin, Hin'. subst kv.
      injection Hin' as Hkey _. apply tile_key_inj in Hkey as [-> _].
      reflexivity.
    + intros r _. apply NoDup_bind.
      * intros c c' kv _ _ Hin Hin'.
        apply list_elem_of_singleton in Hin, Hin'. subst kv.
        injection Hin' as Hkey _. apply tile_key_inj in Hkey as [_ ->].
        reflexivity.
      * intros c _. apply NoDup_singleton.
      * apply NoDup_seq.
    + apply NoDup_seq.
Qed.

Lemma dense_tiles_entries (tiles : TileMap) (R C : nat) :
  dense_tiles tiles R C = list_to_map (grid_entries tiles R C).
Proof.
  apply map_eq. intros key.
  destruct (dense_tiles tiles R C !! key) as [cfg|] eqn:E.
  - destruct (dense_tiles_grid tiles R C key) as (r & c & Hr & Hc & ->);
      [eauto|].
    rewrite dense_tiles_lookup in E by assumption. injection E as <-.
    symmetry. apply elem_of_list_to_map_1; [apply NoDup_bind_keys|].
    apply grid_entries_elem. exists r, c. auto.
  - symmetry. apply not_elem_of_list_to_map_1. intros Hin.
    apply list_elem_of_fmap in Hin as ([key' cfg] & -> & Hin).
    apply grid_entries_elem in Hin as (r & c & Hr & Hc & Hkey & _).
    simpl in E. rewrite Hkey, dense_tiles_lookup in E by assumption.
    discriminate.
Qed.

(** X14: the exported tile map has exactly one entry per cell of the grid:
    numRows times numCols entries, whatever the tile map held. *)
Theorem dense_tiles_size (tiles : TileMap) (numRows numCols : nat) :
  size (dense_tiles tiles numRows numCols) = numRows * numCols.
Proof.
  rewrite dense_tiles_entries.
  rewrite map_size_list_to_map by apply NoDup_bind_keys.
  apply grid_entries_length.
Qed.

End ExportSize.
